(** * The contract-parameter method generator

    A shallow embedding of [scripts/generate_contract_param_methods.py]:
    the script renders, for every Solidity bit width in [range(8, 257, 8)],
    four Rust method stubs into four module-level lists and then writes the
    lists to [output.txt].

    The development has four parts:
    - [Py]: the Python primitives the script relies on ([str], [//],
      [range], list [append], [open]/[write]/[close]) over an explicit
      machine state with exceptions;
    - [Generator]: the script itself, statement by statement;
    - [Text]: a reader for the generated text (lines, records, fields),
      used to state properties of the output;
    - the theorems. *)

From Stdlib Require Import ZArith String Ascii List Lia.
From Stdlib Require Import Decimal DecimalPos DecimalZ DecimalString.
From stdpp Require Import base option list sorting strings gmap.

Local Open Scope string_scope.
Local Open Scope Z_scope.
Local Open Scope list_scope.

(** Concatenation with a literal on the left computes. *)
#[local] Arguments String.append !_ _ / : simpl nomatch.

(* ===================================================================== *)
(** ** Python primitives *)
(* ===================================================================== *)

Module Py.

(** The two escape sequences of the script's literals: the line feed and
    the escaped double quote. *)
Definition newline : ascii := "010"%char.
Definition dquote : ascii := "034"%char.
Definition NL : string := String newline EmptyString.
Definition DQ : string := String dquote EmptyString.

(** [str(n)] on an [int]: the decimal numeral, with a leading [-] below zero.
    The interpreter refuses a numeral of more than 4300 digits with a
    [ValueError]; [str] is the value of [str(n)] where the interpreter
    gives one, and statements over all integers carry the bound (see
    [str_fits] below). The widths of the script have at most three digits. *)
Definition str (n : Z) : string := NilZero.string_of_int (Z.to_int n).

(** [a // b] on [int]s is floor division, which is [Z.div]. *)
Definition floordiv (a b : Z) : Z := a `div` b.

(** [range(start, stop, step)] for a positive step; empty otherwise is not
    needed by the script, whose step is the literal 8. *)
Definition range (start stop step : Z) : list Z :=
  (λ i : nat, start + step * Z.of_nat i) <$>
    seq 0 (Z.to_nat ((stop - start + step - 1) `div` step)).

(** *** Machine state *)

(** The module-level names bound to lists. *)
Record Globals := mkGlobals {
  int_versions : list string;
  uint_versions : list string;
  int_array_versions : list string;
  uint_array_versions : list string
}.

(** The world outside the interpreter: the files of the working directory
    and the faults of the operating system. [fault n] tells whether the
    [n]-th operation on a file (counted from 0 over [open], [write] and
    [close]) fails: a missing directory or a refused permission at [open],
    a full disk at a [write] or at the flush of [close]. *)
Record World := mkWorld {
  disk : gmap string string;
  fault : nat → bool;
  ops : nat
}.

Record Machine := mkMachine {
  globals : Globals;
  world : World
}.

(** The only exception the script's statements can raise. *)
Inductive exn := OSError (op : string) (path : string).

Inductive outcome (A : Type) :=
  | Normal (a : A) (m : Machine)
  | Raised (e : exn) (m : Machine).
Arguments Normal {A} a m.
Arguments Raised {A} e m.

Definition M (A : Type) : Type := Machine → outcome A.

Definition ret {A} (a : A) : M A := λ m, Normal a m.
Definition bind {A B} (c : M A) (k : A → M B) : M B :=
  λ m, match c m with
       | Normal a m' => k a m'
       | Raised e m' => Raised e m'
       end.
Definition raise {A} (e : exn) : M A := λ m, Raised e m.

Definition get_globals : M Globals := λ m, Normal (globals m) m.
Definition put_globals (g : Globals) : M unit :=
  λ m, Normal tt (mkMachine g (world m)).
Definition get_world : M World := λ m, Normal (world m) m.
Definition put_world (w : World) : M unit :=
  λ m, Normal tt (mkMachine (globals m) w).

End Py.

Import Py.

(** The script is written with stdpp's monad notations:
    [x ← c; k] and [c;; k]. *)
#[global] Instance M_ret : MRet Py.M := @Py.ret.
#[global] Instance M_bind : MBind Py.M := λ A B k c, Py.bind c k.

Module PyIO.

(** A file object, as returned by [open]: it remembers its path. *)
Record file := mkFile { file_path : string }.

(** One operation on a file: consult the fault oracle, count the operation,
    and either raise or update the disk. *)
Definition file_op (name path : string)
    (upd : gmap string string → gmap string string) : M unit :=
  w ← get_world;
  if fault w (ops w)
  then put_world (mkWorld (disk w) (fault w) (S (ops w)));;
       raise (OSError name path)
  else put_world (mkWorld (upd (disk w)) (fault w) (S (ops w))).

(** [open(path, "w")]: create the file or truncate it to length zero. *)
Definition open_w (path : string) : M file :=
  file_op "open" path (λ d, <[path := ""]> d);;
  ret (mkFile path).

(** [f.write(s)]: the file was opened with ["w"] and is only appended to.
    The text is put on the disk at the call. The interpreter keeps it in a
    buffer first, so when a later operation fails the real file holds a
    beginning of what is on the disk here, possibly cut inside a record;
    on a run without faults the two agree. *)
Definition write (f : file) (s : string) : M unit :=
  file_op "write" (file_path f)
    (λ d, <[file_path f := default "" (d !! file_path f) +:+ s]> d).

(** [f.close()]: it flushes what the interpreter still buffers, which is
    why it can fail; the disk here already holds that text (see [write]). *)
Definition close (f : file) : M unit :=
  file_op "close" (file_path f) (λ d, d).

(** [for x in xs: body(x)]. *)
Fixpoint for_each {A} (xs : list A) (body : A → M unit) : M unit :=
  match xs with
  | [] => ret tt
  | x :: xs' => body x;; for_each xs' body
  end.

End PyIO.

Import PyIO.

(* ===================================================================== *)
(** ** The script *)
(* ===================================================================== *)

Module Generator.

(** The four rendered texts of [add_methods_for_bit_width], one per
    [append] call, literal by literal. *)
Definition int_text (solidity_bit_width : Z) (rust_signed_type : string) : string :=
  "/// Add an `int" +:+ str solidity_bit_width +:+ "` argument to the `ContractFunctionParameters`" +:+ NL +:+
  "#[allow(dead_code)]" +:+ NL +:+
  "pub fn add_int" +:+ str solidity_bit_width +:+ "(&mut self, val: " +:+ rust_signed_type +:+ ") -> &mut Self {" +:+ NL +:+
  "    self.add_int(&val, " +:+ DQ +:+ "int" +:+ str solidity_bit_width +:+ DQ +:+ ", " +:+ str (floordiv solidity_bit_width 8) +:+ ")" +:+ NL +:+
  "}" +:+ NL.

Definition uint_text (solidity_bit_width : Z) (rust_unsigned_type : string) : string :=
  "/// Add a `uint" +:+ str solidity_bit_width +:+ "` argument to the `ContractFunctionParameters`" +:+ NL +:+
  "#[allow(dead_code)]" +:+ NL +:+
  "pub fn add_uint" +:+ str solidity_bit_width +:+ "(&mut self, val: " +:+ rust_unsigned_type +:+ ") -> &mut Self {" +:+ NL +:+
  "    self.add_int(&val, " +:+ DQ +:+ "uint" +:+ str solidity_bit_width +:+ DQ +:+ ", " +:+ str (floordiv solidity_bit_width 8) +:+ ")" +:+ NL +:+
  "}" +:+ NL.

Definition int_array_text (solidity_bit_width : Z) (rust_signed_type : string) : string :=
  "/// Add an `int" +:+ str solidity_bit_width +:+ "[]` argument to the `ContractFunctionParameters`" +:+ NL +:+
  "#[allow(dead_code)]" +:+ NL +:+
  "pub fn add_int" +:+ str solidity_bit_width +:+ "_array(&mut self, values: &[" +:+ rust_signed_type +:+ "]) -> &mut Self {" +:+ NL +:+
  "    self.add_int_array(values, " +:+ DQ +:+ "int" +:+ str solidity_bit_width +:+ "[]" +:+ DQ +:+ ", " +:+ str (floordiv solidity_bit_width 8) +:+ ")" +:+ NL +:+
  "}" +:+ NL.

Definition uint_array_text (solidity_bit_width : Z) (rust_unsigned_type : string) : string :=
  "/// Add a `uint" +:+ str solidity_bit_width +:+ "[]` argument to the `ContractFunctionParameters`" +:+ NL +:+
  "#[allow(dead_code)]" +:+ NL +:+
  "pub fn add_uint" +:+ str solidity_bit_width +:+ "_array(&mut self, values: &[" +:+ rust_unsigned_type +:+ "]) -> &mut Self {" +:+ NL +:+
  "    self.add_int_array(values, " +:+ DQ +:+ "uint" +:+ str solidity_bit_width +:+ "[]" +:+ DQ +:+ ", " +:+ str (floordiv solidity_bit_width 8) +:+ ")" +:+ NL +:+
  "}" +:+ NL.

(** [def add_methods_for_bit_width(...)]: four appends, in the source's
    order [int_versions], [uint_versions], [int_array_versions],
    [uint_array_versions]. *)
Definition add_methods_for_bit_width
    (solidity_bit_width : Z) (rust_signed_type rust_unsigned_type : string) : M unit :=
  g ← get_globals;
  put_globals (mkGlobals
    (int_versions g ++ [int_text solidity_bit_width rust_signed_type])
    (uint_versions g) (int_array_versions g) (uint_array_versions g));;
  g ← get_globals;
  put_globals (mkGlobals (int_versions g)
    (uint_versions g ++ [uint_text solidity_bit_width rust_unsigned_type])
    (int_array_versions g) (uint_array_versions g));;
  g ← get_globals;
  put_globals (mkGlobals (int_versions g) (uint_versions g)
    (int_array_versions g ++ [int_array_text solidity_bit_width rust_signed_type])
    (uint_array_versions g));;
  g ← get_globals;
  put_globals (mkGlobals (int_versions g) (uint_versions g) (int_array_versions g)
    (uint_array_versions g ++ [uint_array_text solidity_bit_width rust_unsigned_type])).

(** The body of [for bit_width in range(8, 257, 8)]: the [if]/[elif] chain. *)
Definition loop_body (bit_width : Z) : M unit :=
  if bit_width <=? 8 then add_methods_for_bit_width bit_width "i8" "u8"
  else if bit_width <=? 16 then add_methods_for_bit_width bit_width "i16" "u16"
  else if bit_width <=? 32 then add_methods_for_bit_width bit_width "i32" "u32"
  else if bit_width <=? 64 then add_methods_for_bit_width bit_width "i64" "u64"
  else if bit_width <=? 128 then add_methods_for_bit_width bit_width "i128" "u128"
  else add_methods_for_bit_width bit_width "BigInt" "BigUint".

(** The module body, top to bottom. *)
Definition script : M unit :=
  put_globals (mkGlobals [] [] [] []);;
  for_each (range 8 257 8) loop_body;;
  f ← open_w "output.txt";
  (g ← get_globals; for_each (int_versions g) (λ v, write f (v +:+ NL)));;
  (g ← get_globals; for_each (int_array_versions g) (λ v, write f (v +:+ NL)));;
  (g ← get_globals; for_each (uint_versions g) (λ v, write f (v +:+ NL)));;
  (g ← get_globals; for_each (uint_array_versions g) (λ v, write f (v +:+ NL)));;
  close f.

(** Running the interpreter on the script: an exception that reaches the
    top level is reported on the error stream and the exit status is 1;
    otherwise the exit status is 0. *)
Record Process := mkProcess {
  exit_status : Z;
  diagnostic : option exn;
  final : Machine
}.

Definition python3 (prog : M unit) (w : World) : Process :=
  match prog (mkMachine (mkGlobals [] [] [] []) w) with
  | Normal _ m => mkProcess 0 None m
  | Raised e m => mkProcess 1 (Some e) m
  end.

(** A world with the given files and no faults. *)
Definition healthy (d : gmap string string) : World := mkWorld d (λ _, false) 0.

(** The text of [output.txt] after a run in an empty directory. *)
Definition output_txt : option string :=
  disk (world (final (python3 script (healthy ∅)))) !! "output.txt".

End Generator.

Import Generator.

(* ===================================================================== *)
(** ** Reading the generated text *)
(* ===================================================================== *)

(** The script produces plain text. To state what a record declares, the
    text is read back: cut into lines, the lines grouped into records of
    five lines and a blank one, and the fields of a record taken from its
    doc line, its declaration line and its body line. *)

Module Text.

(** The lines of a text, without their terminators. *)
Fixpoint lines (s : string) : list string :=
  match s with
  | EmptyString => []
  | String c s' =>
      if Ascii.eqb c newline then "" :: lines s'
      else match lines s' with
           | [] => [String c ""]
           | l :: ls => String c l :: ls
           end
  end.

(** [strip_prefix p s] is the rest of [s] after its prefix [p]. *)
Fixpoint strip_prefix (p s : string) : option string :=
  match p, s with
  | EmptyString, _ => Some s
  | String a p', String b s' => if Ascii.eqb a b then strip_prefix p' s' else None
  | String _ _, EmptyString => None
  end.

(** [split_at c s] cuts [s] at the first [c], which is dropped. *)
Fixpoint split_at (c : ascii) (s : string) : option (string * string) :=
  match s with
  | EmptyString => None
  | String a s' =>
      if Ascii.eqb a c then Some ("", s')
      else '(l, r) ← split_at c s'; Some (String a l, r)
  end.

(** [int(s)] on a decimal numeral. *)
Definition parse_int (s : string) : option Z :=
  Z.of_int <$> NilZero.int_of_string s.

(** The fields of one method stub. *)
Record stub := mkStub {
  doc_type : string;      (* the type named between backquotes on the doc line *)
  fn_name : string;       (* the declared function name *)
  param_name : string;    (* [val] or [values] *)
  param_type : string;    (* the Rust type of the parameter *)
  callee : string;        (* the method of [self] the body delegates to *)
  forwarded : string;     (* its first argument *)
  sol_type : string;      (* its second argument, a string literal *)
  byte_count : Z          (* its last argument *)
}.

Definition read_doc (l : string) : option string :=
  r ← strip_prefix "/// " l;
  '(_, r) ← split_at "`" r;
  '(t, _) ← split_at "`" r;
  Some t.

Definition read_decl (l : string) : option (string * string * string) :=
  r ← strip_prefix "pub fn " l;
  '(name, r) ← split_at "(" r;
  r ← strip_prefix "&mut self, " r;
  '(pname, r) ← split_at ":" r;
  r ← strip_prefix " " r;
  '(ptype, r) ← split_at ")" r;
  if String.eqb r " -> &mut Self {" then Some (name, pname, ptype) else None.

Definition read_body (l : string) : option (string * string * string * Z) :=
  r ← strip_prefix "    self." l;
  '(f, r) ← split_at "(" r;
  '(arg, r) ← split_at "," r;
  r ← strip_prefix (" " +:+ DQ) r;
  '(sol, r) ← split_at dquote r;
  r ← strip_prefix ", " r;
  '(n, r) ← split_at ")" r;
  n ← parse_int n;
  if String.eqb r "" then Some (f, arg, sol, n) else None.

(** A record is a doc-comment line, the annotation line, the declaration
    line, the body line and the closing brace. *)
Definition read_stub (doc annot decl body brace : string) : option stub :=
  t ← read_doc doc;
  guard (annot = "#[allow(dead_code)]");;
  '(name, pname, ptype) ← read_decl decl;
  '(f, arg, sol, n) ← read_body body;
  guard (brace = "}");;
  Some (mkStub t name pname ptype f arg sol n).

(** A text is a sequence of records, each followed by one blank line. *)
Fixpoint read_records (ls : list string) : option (list stub) :=
  match ls with
  | [] => Some []
  | doc :: annot :: decl :: body :: brace :: blank :: rest =>
      st ← read_stub doc annot decl body brace;
      guard (blank = "");;
      sts ← read_records rest;
      Some (st :: sts)
  | _ => None
  end.

Definition read_text (s : string) : option (list stub) := read_records (lines s).

(** The category and the bit width of a record are those of the Solidity
    type it passes on: [int<w>], [uint<w>], [int<w>[]] or [uint<w>[]]. *)
Inductive signedness := Signed | Unsigned.
Inductive shape := Scalar | Array.

#[global] Instance signedness_eq_dec : EqDecision signedness.
Proof. solve_decision. Defined.
#[global] Instance shape_eq_dec : EqDecision shape.
Proof. solve_decision. Defined.

Definition read_sol_type (s : string) : option (signedness * shape * Z) :=
  '(sg, r) ← match strip_prefix "uint" s with
             | Some r => Some (Unsigned, r)
             | None => r ← strip_prefix "int" s; Some (Signed, r)
             end;
  match split_at "[" r with
  | Some (digits, r') =>
      guard (r' = "]");; w ← parse_int digits; Some (sg, Array, w)
  | None => w ← parse_int r; Some (sg, Scalar, w)
  end.

Definition kind (st : stub) : option (signedness * shape * Z) :=
  read_sol_type (sol_type st).

End Text.

Import Text.

(** The records of [output.txt]. *)
Definition output_stubs : list stub :=
  default [] (output_txt ≫= read_text).

(* ===================================================================== *)
(** ** Vocabulary of the statements *)
(* ===================================================================== *)

Module Vocabulary.

(** The type pair the [if]/[elif] chain of the loop hands to
    [add_methods_for_bit_width], as a function of the width. *)
Definition rust_types (bit_width : Z) : string * string :=
  if bit_width <=? 8 then ("i8", "u8")
  else if bit_width <=? 16 then ("i16", "u16")
  else if bit_width <=? 32 then ("i32", "u32")
  else if bit_width <=? 64 then ("i64", "u64")
  else if bit_width <=? 128 then ("i128", "u128")
  else ("BigInt", "BigUint").

(** The range rule as a table of upper bounds searched in order, with the
    arbitrary-precision pair for every width above the last bound. *)
Definition range_table : list (Z * (string * string)) :=
  [(8, ("i8", "u8")); (16, ("i16", "u16")); (32, ("i32", "u32"));
   (64, ("i64", "u64")); (128, ("i128", "u128"))].

Definition range_rule (width : Z) : string * string :=
  match List.find (λ row, width <=? row.1) range_table with
  | Some row => row.2
  | None => ("BigInt", "BigUint")
  end.

(** The names of a category: [add_<int|uint><width>[_array]] for the
    method, [<int|uint><width>] with [[]] for arrays for the Solidity type. *)
Definition sol_prefix (sg : signedness) : string :=
  match sg with Signed => "int" | Unsigned => "uint" end.

Definition sol_name (sg : signedness) (sh : shape) (w : Z) : string :=
  sol_prefix sg +:+ str w +:+ match sh with Scalar => "" | Array => "[]" end.

Definition method_name (sg : signedness) (sh : shape) (w : Z) : string :=
  "add_" +:+ sol_prefix sg +:+ str w +:+
  match sh with Scalar => "" | Array => "_array" end.

Definition pick (sg : signedness) (tys : string * string) : string :=
  match sg with Signed => tys.1 | Unsigned => tys.2 end.

(** The record of category [(sg, sh)] and width [w] over the Rust type [ty]. *)
Definition stub_of (sg : signedness) (sh : shape) (w : Z) (ty : string) : stub :=
  match sh with
  | Scalar => mkStub (sol_name sg sh w) (method_name sg sh w)
                "val" ty "add_int" "&val" (sol_name sg sh w) (floordiv w 8)
  | Array => mkStub (sol_name sg sh w) (method_name sg sh w)
                "values" ("&[" +:+ ty +:+ "]") "add_int_array" "values"
                (sol_name sg sh w) (floordiv w 8)
  end.

(** The text of a record, printed from its fields: five lines, each ended
    by a line feed; [article] is the word before the type on the doc line. *)
Definition unlines (ls : list string) : string :=
  foldr (λ l acc, l +:+ String newline acc) "" ls.

Definition stub_lines (article : string) (st : stub) : list string :=
  [ "/// Add " +:+ article +:+ " `" +:+ doc_type st +:+
      "` argument to the `ContractFunctionParameters`";
    "#[allow(dead_code)]";
    "pub fn " +:+ fn_name st +:+ "(&mut self, " +:+ param_name st +:+ ": " +:+
      param_type st +:+ ") -> &mut Self {";
    "    self." +:+ callee st +:+ "(" +:+ forwarded st +:+ ", " +:+ DQ +:+
      sol_type st +:+ DQ +:+ ", " +:+ str (byte_count st) +:+ ")";
    "}" ].

Definition stub_text (article : string) (st : stub) : string :=
  unlines (stub_lines article st).

Definition article (sg : signedness) : string :=
  match sg with Signed => "an" | Unsigned => "a" end.

(** [no_char c s]: the character [c] does not occur in [s]. *)
Fixpoint no_char (c : ascii) (s : string) : bool :=
  match s with
  | EmptyString => true
  | String a s' => negb (Ascii.eqb a c) && no_char c s'
  end.

(** The characters of a decimal numeral. *)
Definition numeral_char (c : ascii) : bool :=
  match split_at c "-0123456789" with Some _ => true | None => false end.

Fixpoint numeral (s : string) : bool :=
  match s with
  | EmptyString => true
  | String a s' => numeral_char a && numeral s'
  end.

(** A record whose fields can be read back from its text. *)
Definition readable (st : stub) : Prop :=
  no_char "`" (doc_type st) = true ∧ no_char newline (doc_type st) = true ∧
  no_char "(" (fn_name st) = true ∧ no_char newline (fn_name st) = true ∧
  no_char ":" (param_name st) = true ∧ no_char newline (param_name st) = true ∧
  no_char ")" (param_type st) = true ∧ no_char newline (param_type st) = true ∧
  no_char "(" (callee st) = true ∧ no_char newline (callee st) = true ∧
  no_char "," (forwarded st) = true ∧ no_char newline (forwarded st) = true ∧
  no_char dquote (sol_type st) = true ∧ no_char newline (sol_type st) = true.

(** A Rust type name that can stand in a parameter list. *)
Definition plain (ty : string) : Prop :=
  no_char ")" ty = true ∧ no_char newline ty = true.

(** The text written for a list of records: each followed by a line feed. *)
Definition block (xs : list string) : string :=
  foldr (λ v acc, (v +:+ NL) +:+ acc) "" xs.

(** The lists after the loop has run over the widths [ws]. *)
Definition extend (g : Globals) (ws : list Z) : Globals :=
  mkGlobals
    (int_versions g ++ ((λ w, int_text w (rust_types w).1) <$> ws))
    (uint_versions g ++ ((λ w, uint_text w (rust_types w).2) <$> ws))
    (int_array_versions g ++ ((λ w, int_array_text w (rust_types w).1) <$> ws))
    (uint_array_versions g ++ ((λ w, uint_array_text w (rust_types w).2) <$> ws)).

(** What the four write loops write for the lists [g], in their order. *)
Definition written (g : Globals) : list string :=
  int_versions g ++ int_array_versions g ++
  uint_versions g ++ uint_array_versions g.

Definition text_of (g : Globals) : string := block (written g).

(** The lists when the loop over [range(8, 257, 8)] is done. *)
Definition final_globals : Globals :=
  extend (mkGlobals [] [] [] []) (range 8 257 8).

(** The index of the first faulty operation among [n] operations starting
    at operation [start]. *)
Fixpoint first_fault (fl : nat → bool) (start n : nat) : option nat :=
  match n with
  | O => None
  | S n' => if fl start then Some O else S <$> first_fault fl (S start) n'
  end.

(** The outcome of a run in the world [w], by the first faulty operation
    among the [open], the writes and the [close]: none, the [open], or
    operation [S j], which is write [j] or, past the last write, the
    [close]. After a failure the disk holds the records of the writes
    that succeeded (an upper bound of the real file, see [PyIO.write]). *)
Definition run_result (w : World) : Process :=
  let recs := written final_globals in
  match first_fault (fault w) (ops w) (S (length recs + 1)) with
  | None =>
      mkProcess 0 None
        (mkMachine final_globals
           (mkWorld (<["output.txt" := block recs]> (disk w)) (fault w)
                    (ops w + S (length recs + 1))))
  | Some O =>
      mkProcess 1 (Some (OSError "open" "output.txt"))
        (mkMachine final_globals (mkWorld (disk w) (fault w) (S (ops w))))
  | Some (S j) =>
      mkProcess 1
        (Some (OSError (if bool_decide (j < length recs)%nat
                        then "write" else "close") "output.txt"))
        (mkMachine final_globals
           (mkWorld (<["output.txt" := block (take j recs)]> (disk w)) (fault w)
                    (ops w + S (S j))))
  end.

(** The records the script is expected to write for the widths [ws]:
    one block per category, in the order of the four write loops. *)
Definition category_stubs (sg : signedness) (sh : shape) (ws : list Z) : list stub :=
  (λ w, stub_of sg sh w (pick sg (rust_types w))) <$> ws.

Definition stubs_for (ws : list Z) : list stub :=
  category_stubs Signed Scalar ws ++ category_stubs Signed Array ws ++
  category_stubs Unsigned Scalar ws ++ category_stubs Unsigned Array ws.

(** The layout of a text, line by line: a doc-comment line, the
    annotation line, a declaration line, an indented body line, the closing
    brace, a blank line, and so on to the end. *)
Definition starts_with (p s : string) : bool :=
  match strip_prefix p s with Some _ => true | None => false end.

Fixpoint layout_ok (ls : list string) : bool :=
  match ls with
  | [] => true
  | doc :: annot :: decl :: body :: brace :: blank :: rest =>
      starts_with "/// " doc && String.eqb annot "#[allow(dead_code)]" &&
      starts_with "pub fn " decl && starts_with "    self." body &&
      String.eqb brace "}" && String.eqb blank "" && layout_ok rest
  | _ => false
  end.

(** The width of a record, and the records of one width. *)
Definition width_of (st : stub) : option Z := (λ k, k.2) <$> kind st.

Definition of_width (w : Z) (sts : list stub) : list stub :=
  filter (λ st, width_of st = Some w) sts.

(** The parameter type of a category over a Rust type name. *)
Definition param_over (sh : shape) (ty : string) : string :=
  match sh with Scalar => ty | Array => "&[" +:+ ty +:+ "]" end.

(** The widths of the records of one category, in the order of the text. *)
Definition widths_of (sg : signedness) (sh : shape) (sts : list stub) : list Z :=
  omap (λ st, match kind st with
              | Some (sg', sh', w) =>
                  if decide (sg' = sg ∧ sh' = sh) then Some w else None
              | None => None
              end) sts.

End Vocabulary.

Import Vocabulary.

Example range_8_257_8 :
  range 8 257 8 = [8;16;24;32;40;48;56;64;72;80;88;96;104;112;120;128;
                   136;144;152;160;168;176;184;192;200;208;216;224;232;240;248;256].
Proof. reflexivity. Qed.

Example str_24 : str 24 = "24".
Proof. reflexivity. Qed.

(** The text appended to [int_array_versions] for width 24, line by line. *)
Example int_array_text_24 :
  Text.lines (int_array_text 24 "i32") =
    [ "/// Add an `int24[]` argument to the `ContractFunctionParameters`";
      "#[allow(dead_code)]";
      "pub fn add_int24_array(&mut self, values: &[i32]) -> &mut Self {";
      "    self.add_int_array(values, " +:+ DQ +:+ "int24[]" +:+ DQ +:+ ", 3)";
      "}" ].
Proof. reflexivity. Qed.

(** The unsigned scalar method also delegates to [add_int]. *)
Example uint_text_256 :
  Text.lines (uint_text 256 "BigUint") =
    [ "/// Add a `uint256` argument to the `ContractFunctionParameters`";
      "#[allow(dead_code)]";
      "pub fn add_uint256(&mut self, val: BigUint) -> &mut Self {";
      "    self.add_int(&val, " +:+ DQ +:+ "uint256" +:+ DQ +:+ ", 32)";
      "}" ].
Proof. reflexivity. Qed.

(** A run whose third write fails: status 1 and the error of that write. *)
Example third_write_fails :
  let p := python3 script (mkWorld ∅ (λ n, Nat.eqb n 3) 0) in
  exit_status p = 1 ∧ diagnostic p = Some (OSError "write" "output.txt").
Proof. by vm_compute. Qed.

Example str_neg : str (-7) = "-7" ∧ str 0 = "0" ∧ floordiv (-7) 8 = -1.
Proof. done. Qed.

(* ===================================================================== *)
(** ** Strings, lines and numerals *)
(* ===================================================================== *)

Section StringFacts.

Lemma append_assoc (a b c : string) : (a +:+ b) +:+ c = a +:+ (b +:+ c).
Proof. induction a as [|x a IH]; simpl; [done | by rewrite IH]. Qed.

Lemma append_nil_r (a : string) : a +:+ "" = a.
Proof. induction a as [|x a IH]; simpl; [done | by rewrite IH]. Qed.

Lemma no_char_app c a b : no_char c (a +:+ b) = no_char c a && no_char c b.
Proof.
  induction a as [|x a IH]; simpl; [done|].
  rewrite IH. by destruct (Ascii.eqb x c).
Qed.

(** A line without a line feed, then a line feed: the first line. *)
Lemma lines_app l rest :
  no_char newline l = true → lines (l +:+ String newline rest) = l :: lines rest.
Proof.
  induction l as [|x l IH]; simpl; [done|].
  intros [Hx Hl]%andb_true_iff.
  destruct (Ascii.eqb x newline); [done|].
  by rewrite (IH Hl).
Qed.

Lemma strip_prefix_app p s : strip_prefix p (p +:+ s) = Some s.
Proof.
  induction p as [|x p IH]; simpl; [done|].
  by rewrite Ascii.eqb_refl.
Qed.

Lemma split_at_app c a r :
  no_char c a = true → split_at c (a +:+ String c r) = Some (a, r).
Proof.
  induction a as [|x a IH]; simpl.
  - by rewrite Ascii.eqb_refl.
  - intros [Hx Ha]%andb_true_iff.
    destruct (Ascii.eqb x c); [done|].
    by rewrite (IH Ha).
Qed.

Lemma split_at_none c a : no_char c a = true → split_at c a = None.
Proof.
  induction a as [|x a IH]; simpl; [done|].
  intros [Hx Ha]%andb_true_iff.
  destruct (Ascii.eqb x c); [done|].
  by rewrite (IH Ha).
Qed.

Lemma numeral_no_char c s :
  numeral_char c = false → numeral s = true → no_char c s = true.
Proof.
  intros Hc. induction s as [|x s IH]; simpl; [done|].
  intros [Hx Hs]%andb_true_iff.
  rewrite (IH Hs), andb_true_r.
  destruct (Ascii.eqb_spec x c) as [->|]; [congruence | done].
Qed.

Lemma numeral_uint (d : uint) : numeral (NilEmpty.string_of_uint d) = true.
Proof. induction d; simpl; done. Qed.

(** [str] yields a numeral. *)
Lemma str_numeral (n : Z) : numeral (str n) = true.
Proof.
  unfold str. destruct n as [|p|p]; simpl; [done| |].
  - destruct (Pos.to_uint p); try done; apply (numeral_uint (_ _)).
  - destruct (Pos.to_uint p); try done; apply (numeral_uint (_ _)).
Qed.

Lemma str_no_char c n : numeral_char c = false → no_char c (str n) = true.
Proof. intros Hc. apply numeral_no_char; [done | apply str_numeral]. Qed.

(** [int(str(n)) = n]. *)
Lemma parse_int_str (n : Z) : parse_int (str n) = Some n.
Proof.
  unfold parse_int, str.
  rewrite NilZero.isi.
  - simpl. by rewrite DecimalZ.of_to.
  - destruct n as [|p|p]; simpl; try done.
    intros [= H]. by apply DecimalPos.Unsigned.to_uint_nonnil in H.
  - destruct n as [|p|p]; simpl; try done.
    intros [= H]. by apply DecimalPos.Unsigned.to_uint_nonnil in H.
Qed.

Lemma str_inj (a b : Z) : str a = str b → a = b.
Proof.
  intros H. assert (Some a = Some b) as [= ->]; [|done].
  by rewrite <- !parse_int_str, H.
Qed.

End StringFacts.

(* ===================================================================== *)
(** ** Reading back what was printed *)
(* ===================================================================== *)

Section ReadBack.

#[local] Arguments str : simpl never.
#[local] Arguments floordiv : simpl never.

Lemma split_at_skip c a s :
  no_char c a = true →
  split_at c (a +:+ s) = '(l, r) ← split_at c s; Some (a +:+ l, r).
Proof.
  induction a as [|x a IH]; simpl.
  - intros _. by destruct (split_at c s) as [[??]|].
  - intros [Hx Ha]%andb_true_iff.
    destruct (Ascii.eqb x c); [done|].
    rewrite (IH Ha). by destruct (split_at c s) as [[??]|].
Qed.

Lemma lines_unlines ls rest :
  Forall (λ l, no_char newline l = true) ls →
  lines (unlines ls +:+ rest) = ls ++ lines rest.
Proof.
  induction 1 as [|l ls Hl _ IH]; simpl; [done|].
  rewrite append_assoc. simpl. rewrite (lines_app _ _ Hl). by rewrite IH.
Qed.

Lemma read_doc_print art t :
  no_char "`" art = true → no_char "`" t = true →
  read_doc ("/// Add " +:+ art +:+ " `" +:+ t +:+
            "` argument to the `ContractFunctionParameters`") = Some t.
Proof.
  intros Ha Ht. unfold read_doc. simpl.
  rewrite (split_at_skip _ art) by done. simpl.
  rewrite (split_at_skip _ t) by done. simpl.
  by rewrite append_nil_r.
Qed.

Lemma read_decl_print name pname ptype :
  no_char "(" name = true → no_char ":" pname = true → no_char ")" ptype = true →
  read_decl ("pub fn " +:+ name +:+ "(&mut self, " +:+ pname +:+ ": " +:+
             ptype +:+ ") -> &mut Self {") = Some (name, pname, ptype).
Proof.
  intros Hn Hp Ht. unfold read_decl. simpl.
  rewrite (split_at_skip _ name) by done. simpl.
  rewrite (split_at_skip _ pname) by done. simpl.
  rewrite (split_at_skip _ ptype) by done. simpl.
  by rewrite !append_nil_r.
Qed.

Lemma read_body_print f arg sol n :
  no_char "(" f = true → no_char "," arg = true → no_char dquote sol = true →
  read_body ("    self." +:+ f +:+ "(" +:+ arg +:+ ", " +:+ DQ +:+
             sol +:+ DQ +:+ ", " +:+ str n +:+ ")") = Some (f, arg, sol, n).
Proof.
  intros Hf Ha Hs. unfold read_body. simpl.
  rewrite (split_at_skip _ f) by done. simpl.
  rewrite (split_at_skip _ arg) by done. simpl.
  rewrite (split_at_skip _ sol) by done. simpl.
  rewrite (split_at_skip _ (str n)) by (by apply str_no_char). simpl.
  rewrite !append_nil_r, parse_int_str. done.
Qed.

(** Reading the five lines printed for a record gives the record back. *)
Lemma read_stub_print art st :
  no_char "`" art = true → readable st →
  match stub_lines art st with
  | [doc; annot; decl; body; brace] => read_stub doc annot decl body brace = Some st
  | _ => False
  end.
Proof.
  intros Ha Hr. destruct st. destruct Hr as (?&?&?&?&?&?&?&?&?&?&?&?&?&?).
  simpl in * |-. unfold stub_lines, read_stub.
  cbn [doc_type fn_name param_name param_type callee forwarded sol_type byte_count].
  rewrite read_doc_print, read_decl_print, read_body_print by done.
  by simplify_option_eq.
Qed.

Lemma stub_lines_no_newline art st :
  no_char newline art = true → readable st →
  Forall (λ l, no_char newline l = true) (stub_lines art st).
Proof.
  intros Ha Hr. destruct st. destruct Hr as (?&?&?&?&?&?&?&?&?&?&?&?&?&?).
  simpl in * |-. unfold stub_lines.
  cbn [doc_type fn_name param_name param_type callee forwarded sol_type byte_count].
  rewrite !Forall_cons. repeat split; try apply Forall_nil_2; try done;
    repeat (progress simpl || rewrite no_char_app);
    rewrite ?str_no_char by done;
    repeat match goal with H : no_char _ _ = true |- _ => rewrite H; clear H end;
    done.
Qed.

End ReadBack.
(* ===================================================================== *)
(** ** The texts of the script are printed records *)
(* ===================================================================== *)

Section Rendering.

#[local] Arguments str : simpl never.
#[local] Arguments floordiv : simpl never.

Ltac norm_text :=
  unfold int_text, uint_text, int_array_text, uint_array_text,
         stub_text, stub_lines, unlines, stub_of, sol_name, method_name;
  repeat (progress simpl || rewrite append_assoc || rewrite append_nil_r).

Lemma int_text_print w ty :
  int_text w ty = stub_text (article Signed) (stub_of Signed Scalar w ty).
Proof. norm_text. reflexivity. Qed.

Lemma uint_text_print w ty :
  uint_text w ty = stub_text (article Unsigned) (stub_of Unsigned Scalar w ty).
Proof. norm_text. reflexivity. Qed.

Lemma int_array_text_print w ty :
  int_array_text w ty = stub_text (article Signed) (stub_of Signed Array w ty).
Proof. norm_text. reflexivity. Qed.

Lemma uint_array_text_print w ty :
  uint_array_text w ty = stub_text (article Unsigned) (stub_of Unsigned Array w ty).
Proof. norm_text. reflexivity. Qed.

(** The six type names of the chain can stand in a parameter list. *)
Lemma rust_types_plain w sg : plain (pick sg (rust_types w)).
Proof.
  unfold rust_types.
  repeat case_match; destruct sg; split; reflexivity.
Qed.

Lemma stub_of_readable sg sh w ty : plain ty → readable (stub_of sg sh w ty).
Proof.
  intros [Hp Hn]. unfold readable.
  destruct sg, sh; simpl;
    repeat (progress simpl || rewrite no_char_app);
    rewrite ?str_no_char by done; rewrite ?Hp, ?Hn; done.
Qed.

End Rendering.

(* ===================================================================== *)
(** ** Reading a whole text *)
(* ===================================================================== *)

Section ReadText.

Lemma block_app xs ys : block (xs ++ ys) = block xs +:+ block ys.
Proof.
  induction xs as [|x xs IH]; simpl; [done|].
  by rewrite IH, !append_assoc.
Qed.

Lemma read_records_cons doc annot decl body brace blank rest :
  read_records (doc :: annot :: decl :: body :: brace :: blank :: rest) =
    st ← read_stub doc annot decl body brace;
    guard (blank = "");;
    sts ← read_records rest;
    Some (st :: sts).
Proof. reflexivity. Qed.

(** A block of printed records, followed by any text, reads as the records
    followed by what the text reads as. *)
Lemma read_records_block sg (sts : list stub) (rest : string) :
  Forall readable sts →
  read_records (lines (block (stub_text (article sg) <$> sts) +:+ rest)) =
    tail ← read_records (lines rest); Some (sts ++ tail).
Proof.
  assert (no_char "`" (article sg) = true ∧ no_char newline (article sg) = true)
    as [Hq Hn] by (by destruct sg).
  induction 1 as [|st sts Hst _ IH].
  - simpl. by destruct (read_records (lines rest)).
  - cbn [fmap list_fmap block foldr]. fold (block (stub_text (article sg) <$> sts)).
    unfold stub_text at 1. rewrite !append_assoc.
    rewrite lines_unlines by (by apply stub_lines_no_newline).
    pose proof (read_stub_print (article sg) st Hq Hst) as Hread.
    destruct (stub_lines (article sg) st) as [|doc [|annot [|decl [|body [|brace [|]]]]]];
      try done.
    cbn [app]. change (NL +:+ ?t) with (String newline t).
    cbn [lines]. rewrite Ascii.eqb_refl.
    rewrite read_records_cons, Hread. cbn [mbind option_bind].
    rewrite IH. simplify_option_eq. by destruct (read_records (lines rest)).
Qed.

End ReadText.

(* ===================================================================== *)
(** ** Running the script *)
(* ===================================================================== *)

Section Execution.

Lemma bind_run {A B} (c : M A) (k : A → M B) m :
  (c ≫= k) m = match c m with
               | Normal a m' => k a m'
               | Raised e m' => Raised e m'
               end.
Proof. reflexivity. Qed.

Lemma add_methods_run w s u m :
  add_methods_for_bit_width w s u m =
    Normal tt (mkMachine
      (mkGlobals (int_versions (globals m) ++ [int_text w s])
                 (uint_versions (globals m) ++ [uint_text w u])
                 (int_array_versions (globals m) ++ [int_array_text w s])
                 (uint_array_versions (globals m) ++ [uint_array_text w u]))
      (world m)).
Proof. reflexivity. Qed.

(** The chain of the loop body only chooses the two type names. *)
Lemma loop_body_types w :
  loop_body w = add_methods_for_bit_width w (rust_types w).1 (rust_types w).2.
Proof. unfold loop_body, rust_types. by repeat case_match. Qed.

Lemma extend_cons g w ws :
  extend (extend g [w]) ws = extend g (w :: ws).
Proof. unfold extend; simpl. by rewrite <- !app_assoc. Qed.

Lemma extend_nil g : extend g [] = g.
Proof. destruct g. unfold extend; simpl. by rewrite !app_nil_r. Qed.

(** The loop over the widths appends, list by list, one text per width. *)
Lemma loop_run ws m :
  for_each ws loop_body m = Normal tt (mkMachine (extend (globals m) ws) (world m)).
Proof.
  revert m. induction ws as [|w ws IH]; intros m.
  - simpl. rewrite extend_nil. by destruct m.
  - cbn [for_each]. rewrite bind_run, loop_body_types, add_methods_run.
    rewrite IH. cbn [globals world]. by rewrite <- extend_cons.
Qed.

Lemma file_op_run name path upd m :
  file_op name path upd m =
    if fault (world m) (ops (world m))
    then Raised (OSError name path)
           (mkMachine (globals m)
              (mkWorld (disk (world m)) (fault (world m)) (S (ops (world m)))))
    else Normal tt
           (mkMachine (globals m)
              (mkWorld (upd (disk (world m))) (fault (world m)) (S (ops (world m))))).
Proof.
  unfold file_op. rewrite bind_run. cbn [get_world].
  by destruct (fault (world m) (ops (world m))).
Qed.

Lemma for_each_app {A} (xs ys : list A) body m :
  for_each (xs ++ ys) body m = (for_each xs body;; for_each ys body) m.
Proof.
  revert m. induction xs as [|x xs IH]; intros m; [done|].
  cbn [app for_each]. rewrite !bind_run.
  destruct (body x m) as [[] m'|e m']; [|done].
  by rewrite IH, bind_run.
Qed.

(** A write loop on an open file: all the records are appended, or the
    loop stops at the first write that fails. *)
Lemma write_loop_run f xs m old :
  disk (world m) !! file_path f = Some old →
  for_each xs (λ v, write f (v +:+ NL)) m =
    match first_fault (fault (world m)) (ops (world m)) (length xs) with
    | None =>
        Normal tt (mkMachine (globals m)
          (mkWorld (<[file_path f := old +:+ block xs]> (disk (world m)))
                   (fault (world m)) (ops (world m) + length xs)))
    | Some k =>
        Raised (OSError "write" (file_path f)) (mkMachine (globals m)
          (mkWorld (<[file_path f := old +:+ block (take k xs)]> (disk (world m)))
                   (fault (world m)) (ops (world m) + S k)))
    end.
Proof.
  revert m old. induction xs as [|x xs IH]; intros [g [d fl n]] old Hold;
    cbn [world disk fault ops globals] in *.
  - simpl. by rewrite append_nil_r, insert_id, Nat.add_0_r.
  - cbn [for_each length first_fault]. rewrite bind_run.
    unfold write at 1. rewrite file_op_run. cbn [world disk fault ops globals].
    destruct (fl n) eqn:Hfl.
    + simpl. by rewrite append_nil_r, insert_id, Nat.add_1_r.
    + rewrite Hold. cbn [default].
      rewrite (IH _ (old +:+ x +:+ NL)) by (cbn; apply lookup_insert_eq).
      cbn [world disk fault ops globals].
      destruct (first_fault fl (S n) (length xs)) as [k|]; cbn [fmap option_fmap option_map].
      * rewrite insert_insert_eq. cbn [take block foldr]. fold (block (take k xs)).
        rewrite !append_assoc.
        by replace (S n + S k)%nat with (n + S (S k))%nat by lia.
      * rewrite insert_insert_eq. cbn [block foldr]. fold (block xs).
        rewrite !append_assoc.
        by replace (S n + length xs)%nat with (n + S (length xs))%nat by lia.
Qed.

Lemma first_fault_add fl s a b :
  first_fault fl s (a + b) =
    match first_fault fl s a with
    | Some k => Some k
    | None => (λ k, a + k)%nat <$> first_fault fl (s + a) b
    end.
Proof.
  revert s. induction a as [|a IH]; intros s; simpl.
  - rewrite Nat.add_0_r. by destruct (first_fault fl s b).
  - destruct (fl s); [done|]. rewrite IH.
    destruct (first_fault fl (S s) a); [done|]. simpl.
    replace (s + S a)%nat with (S (s + a))%nat by lia.
    by destruct (first_fault fl (S (s + a)) b).
Qed.

Lemma first_fault_lt fl s n k : first_fault fl s n = Some k → (k < n)%nat.
Proof.
  revert s k. induction n as [|n IH]; intros s k; simpl; [done|].
  destruct (fl s); [intros [= <-]; lia|].
  destruct (first_fault fl (S s) n) as [j|] eqn:Hj; [|done].
  intros [= <-]. apply IH in Hj. lia.
Qed.

(** No fault among [n] operations: every one of them succeeds. *)
Lemma first_fault_none fl s n :
  first_fault fl s n = None ↔ ∀ i, (i < n)%nat → fl (s + i)%nat = false.
Proof.
  revert s. induction n as [|n IH]; intros s; simpl.
  - split; [intros _ i ?; lia | done].
  - destruct (fl s) eqn:Hs.
    + split; [done|]. intros H. specialize (H 0%nat). rewrite Nat.add_0_r in H.
      rewrite H in Hs by lia. done.
    + rewrite fmap_None, IH. split.
      * intros H [|i] ?; [by rewrite Nat.add_0_r|].
        replace (s + S i)%nat with (S s + i)%nat by lia. apply H. lia.
      * intros H i ?. replace (S s + i)%nat with (s + S i)%nat by lia. apply H. lia.
Qed.

Lemma write_loop_globals f xs m m' :
  for_each xs (λ v, write f (v +:+ NL)) m = Normal tt m' → globals m' = globals m.
Proof.
  revert m. induction xs as [|x xs IH]; intros m.
  - by intros [= <-].
  - cbn [for_each]. rewrite bind_run. unfold write at 1. rewrite file_op_run.
    destruct (fault (world m) (ops (world m))); [done|].
    intros H. by rewrite (IH _ H).
Qed.

(** The four write loops are one loop over the four lists in a row. *)
Lemma write_phase_run {A} f (k : M A) m :
  ((g ← get_globals; for_each (int_versions g) (λ v, write f (v +:+ NL)));;
   (g ← get_globals; for_each (int_array_versions g) (λ v, write f (v +:+ NL)));;
   (g ← get_globals; for_each (uint_versions g) (λ v, write f (v +:+ NL)));;
   (g ← get_globals; for_each (uint_array_versions g) (λ v, write f (v +:+ NL)));;
   k) m
  = (for_each (written (globals m)) (λ v, write f (v +:+ NL));; k) m.
Proof.
  unfold written. rewrite !bind_run. cbn [get_globals].
  rewrite for_each_app, bind_run.
  destruct (for_each (int_versions _) _ m) as [[] m1|] eqn:H1; [|done].
  rewrite !bind_run. cbn [get_globals].
  rewrite for_each_app, bind_run, (write_loop_globals _ _ _ _ H1).
  destruct (for_each (int_array_versions _) _ m1) as [[] m2|] eqn:H2; [|done].
  rewrite !bind_run. cbn [get_globals].
  rewrite for_each_app, bind_run.
  rewrite (write_loop_globals _ _ _ _ H2), (write_loop_globals _ _ _ _ H1).
  destruct (for_each (uint_versions _) _ m2) as [[] m3|] eqn:H3; [|done].
  rewrite !bind_run. cbn [get_globals].
  by rewrite (write_loop_globals _ _ _ _ H3), (write_loop_globals _ _ _ _ H2),
    (write_loop_globals _ _ _ _ H1).
Qed.

(** The run of the script in any world. *)
Theorem script_run (w : World) : python3 script w = run_result w.
Proof.
  unfold python3, run_result, script.
  rewrite bind_run. cbn [put_globals]. rewrite bind_run, loop_run.
  cbn [globals world]. fold final_globals. generalize final_globals as G. intros G.
  destruct w as [d fl n]. cbn [disk fault ops first_fault].
  rewrite bind_run. unfold open_w. rewrite bind_run, file_op_run.
  cbn [globals world disk fault ops].
  destruct (fl n) eqn:Hopen; [done|]. cbn [ret].
  rewrite write_phase_run, bind_run. cbn [globals].
  rewrite (write_loop_run _ _ _ "") by (cbn; apply lookup_insert_eq).
  cbn [globals world disk fault ops file_path].
  rewrite first_fault_add.
  destruct (first_fault fl (S n) (length (written G))) as [k|] eqn:Hk.
  - cbn [fmap option_fmap option_map]. rewrite insert_insert_eq.
    rewrite bool_decide_eq_true_2 by (by eapply first_fault_lt).
    by replace (S n + S k)%nat with (n + S (S k))%nat by lia.
  - unfold close. rewrite file_op_run. cbn [globals world disk fault ops file_path first_fault].
    rewrite insert_insert_eq.
    destruct (fl (S n + length (written G))%nat) eqn:Hclose;
      cbn [fmap option_fmap option_map].
    + rewrite bool_decide_eq_false_2 by lia.
      rewrite take_ge by lia.
      by replace (S (S n + length (written G)))%nat
        with (n + S (S (length (written G) + 0)))%nat by lia.
    + by replace (S (S n + length (written G)))%nat
        with (n + S (length (written G) + 1))%nat by lia.
Qed.

End Execution.

(* ===================================================================== *)
(** ** The generated file and its records *)
(* ===================================================================== *)

Section Output.

(** The lists of the script hold the printed records of their category. *)
Lemma written_extend ws :
  written (extend (mkGlobals [] [] [] []) ws) =
    (stub_text (article Signed) <$> category_stubs Signed Scalar ws) ++
    (stub_text (article Signed) <$> category_stubs Signed Array ws) ++
    (stub_text (article Unsigned) <$> category_stubs Unsigned Scalar ws) ++
    (stub_text (article Unsigned) <$> category_stubs Unsigned Array ws).
Proof.
  unfold written, extend, category_stubs.
  cbn [int_versions uint_versions int_array_versions uint_array_versions app pick].
  rewrite <- !list_fmap_compose.
  f_equal; [|f_equal; [|f_equal]]; apply list_fmap_ext; intros i w _; cbn [compose].
  - apply int_text_print.
  - apply int_array_text_print.
  - apply uint_text_print.
  - apply uint_array_text_print.
Qed.

Lemma category_stubs_readable sg sh ws : Forall readable (category_stubs sg sh ws).
Proof.
  unfold category_stubs. apply Forall_fmap, Forall_forall. intros w _.
  apply stub_of_readable, rust_types_plain.
Qed.

(** Whatever the widths, the text written for them reads back as their
    records, block by block. *)
Lemma read_text_extend ws :
  read_text (text_of (extend (mkGlobals [] [] [] []) ws)) = Some (stubs_for ws).
Proof.
  unfold read_text, text_of, stubs_for. rewrite written_extend, !block_app.
  rewrite !read_records_block by apply category_stubs_readable.
  rewrite <- (append_nil_r (block _)).
  rewrite read_records_block by apply category_stubs_readable.
  cbn. by rewrite app_nil_r.
Qed.

(** In a world without faults the run succeeds and leaves the text in
    [output.txt]. *)
Lemma first_fault_healthy s n : first_fault (λ _, false) s n = None.
Proof. by apply first_fault_none. Qed.

Lemma output_txt_eq : output_txt = Some (text_of final_globals).
Proof.
  unfold output_txt. rewrite script_run. unfold run_result, healthy.
  cbn [fault ops disk]. rewrite first_fault_healthy.
  cbn [final world disk]. apply lookup_insert_eq.
Qed.

Lemma output_stubs_eq : output_stubs = stubs_for (range 8 257 8).
Proof.
  unfold output_stubs. rewrite output_txt_eq. cbn [mbind option_bind].
  unfold final_globals. by rewrite read_text_extend.
Qed.

End Output.

(* ===================================================================== *)
(** ** Categories, widths and names *)
(* ===================================================================== *)

Section Kinds.

#[local] Arguments str : simpl never.
#[local] Arguments floordiv : simpl never.

(** The category and the width of a record are read off its Solidity type. *)
Lemma kind_stub_of sg sh w ty : kind (stub_of sg sh w ty) = Some (sg, sh, w).
Proof.
  unfold kind, read_sol_type.
  destruct sg, sh; simpl;
    rewrite ?append_nil_r, ?(split_at_skip "[" (str w)) by (by apply str_no_char);
    rewrite ?(split_at_none "[" (str w)) by (by apply str_no_char);
    simpl; rewrite ?append_nil_r, parse_int_str; by simplify_option_eq.
Qed.

(** [range(start, stop, step)] holds the numbers [start + step * i] below
    [stop]. *)
Lemma elem_of_range start stop step w :
  0 < step →
  w ∈ range start stop step ↔ ∃ i, 0 ≤ i ∧ w = start + step * i ∧ w < stop.
Proof.
  intros Hstep. unfold range. rewrite list_elem_of_fmap. split.
  - intros (i & -> & Hi%elem_of_seq). exists (Z.of_nat i).
    split; [lia|]. split; [done|].
    destruct Hi as [_ Hi]. simpl in Hi.
    pose proof (Z.div_mod (stop - start + step - 1) step ltac:(lia)).
    pose proof (Z.mod_pos_bound (stop - start + step - 1) step Hstep).
    assert (Z.of_nat i < (stop - start + step - 1) `div` step) by lia.
    nia.
  - intros (i & Hi & -> & Hlt). exists (Z.to_nat i).
    split; [by rewrite Z2Nat.id|]. apply elem_of_seq. split; [lia|]. simpl.
    pose proof (Z.div_mod (stop - start + step - 1) step ltac:(lia)).
    pose proof (Z.mod_pos_bound (stop - start + step - 1) step Hstep).
    assert (i < (stop - start + step - 1) `div` step) by nia.
    lia.
Qed.

(** The generated widths are the multiples of 8 from 8 to 256. *)
Lemma elem_of_widths w :
  w ∈ range 8 257 8 ↔ ∃ k, 1 ≤ k ≤ 32 ∧ w = 8 * k.
Proof.
  rewrite elem_of_range by lia. split.
  - intros (i & ? & -> & ?). exists (i + 1). lia.
  - intros (k & ? & ->). exists (k - 1). lia.
Qed.

Lemma widths_of_app sg sh xs ys :
  widths_of sg sh (xs ++ ys) = widths_of sg sh xs ++ widths_of sg sh ys.
Proof. apply omap_app. Qed.

Lemma widths_of_cons sg sh st sts :
  widths_of sg sh (st :: sts) =
    match kind st with
    | Some (sg', sh', w) =>
        if decide (sg' = sg ∧ sh' = sh) then w :: widths_of sg sh sts
        else widths_of sg sh sts
    | None => widths_of sg sh sts
    end.
Proof.
  unfold widths_of. cbn [omap list_omap].
  destruct (kind st) as [[[? ?] ?]|]; [|done]. by case_decide.
Qed.

Lemma widths_of_category sg sh sg' sh' ws :
  widths_of sg sh (category_stubs sg' sh' ws) =
    if decide (sg' = sg ∧ sh' = sh) then ws else [].
Proof.
  induction ws as [|w ws IH]; [by case_decide|].
  change (category_stubs sg' sh' (w :: ws))
    with (stub_of sg' sh' w (pick sg' (rust_types w)) :: category_stubs sg' sh' ws).
  rewrite widths_of_cons, kind_stub_of, IH. by case_decide.
Qed.

(** Each category of the expected records has the widths, in order. *)
Lemma widths_of_stubs_for sg sh ws : widths_of sg sh (stubs_for ws) = ws.
Proof.
  unfold stubs_for. rewrite !widths_of_app, !widths_of_category.
  destruct sg, sh; cbn; by rewrite ?app_nil_r.
Qed.

End Kinds.

(* ===================================================================== *)
(** ** Properties of the generator *)
(* ===================================================================== *)

Section Claims.

#[local] Arguments str : simpl never.
#[local] Arguments floordiv : simpl never.

Lemma Forall_stubs_for (P : stub → Prop) ws :
  (∀ sg sh w, w ∈ ws → P (stub_of sg sh w (pick sg (rust_types w)))) →
  Forall P (stubs_for ws).
Proof.
  intros H. unfold stubs_for, category_stubs.
  rewrite !Forall_app, !Forall_fmap, !Forall_forall.
  repeat split; intros w Hw; by apply H.
Qed.

Lemma rust_types_range_rule w : rust_types w = range_rule w.
Proof.
  unfold rust_types, range_rule. cbn [List.find range_table fst snd].
  by repeat case_match.
Qed.

Lemma stub_of_in_stubs_for sg sh w ws :
  w ∈ ws → stub_of sg sh w (pick sg (rust_types w)) ∈ stubs_for ws.
Proof.
  intros Hw. unfold stubs_for, category_stubs. rewrite !elem_of_app.
  destruct sg, sh; [left|right; left|right; right; left|right; right; right];
    apply list_elem_of_fmap; by exists w.
Qed.

(** C1: every record takes its Rust type from the range rule applied to
    its width: the chain of the loop computes the rule on every integer,
    the rule has the six ranges of the claim, the parameter type of each
    of the written records is the signed or unsigned name the rule gives
    for the record's width, each width of [range(8, 257, 8)] has its record
    in every category, and the four records of width 64 are over [i64] and
    [u64]. *)
Theorem type_pair_by_range_rule :
  (∀ w : Z, rust_types w = range_rule w) ∧
  (∀ w : Z,
     (w ≤ 8 → range_rule w = ("i8", "u8")) ∧
     (8 < w ≤ 16 → range_rule w = ("i16", "u16")) ∧
     (16 < w ≤ 32 → range_rule w = ("i32", "u32")) ∧
     (32 < w ≤ 64 → range_rule w = ("i64", "u64")) ∧
     (64 < w ≤ 128 → range_rule w = ("i128", "u128")) ∧
     (128 < w → range_rule w = ("BigInt", "BigUint"))) ∧
  Forall (λ st, ∃ sg sh w,
            kind st = Some (sg, sh, w) ∧ w ∈ range 8 257 8 ∧
            param_type st = param_over sh (pick sg (range_rule w)))
         output_stubs ∧
  (∀ sg sh w, w ∈ range 8 257 8 →
     stub_of sg sh w (pick sg (range_rule w)) ∈ output_stubs) ∧
  param_type <$> of_width 64 output_stubs = ["i64"; "&[i64]"; "u64"; "&[u64]"].
Proof.
  split; [apply rust_types_range_rule|]. split; [|split; [|split]].
  - intros w. unfold range_rule. cbn [List.find range_table fst snd].
    destruct (Z.leb_spec w 8), (Z.leb_spec w 16), (Z.leb_spec w 32),
      (Z.leb_spec w 64), (Z.leb_spec w 128);
      repeat split; intros ?; (reflexivity || lia).
  - rewrite output_stubs_eq. apply Forall_stubs_for. intros sg sh w Hw.
    exists sg, sh, w. rewrite kind_stub_of, <- rust_types_range_rule.
    by destruct sh.
  - intros sg sh w Hw. rewrite output_stubs_eq, <- rust_types_range_rule.
    by apply stub_of_in_stubs_for.
  - by vm_compute.
Qed.

Lemma written_length : length (written final_globals) = 128%nat.
Proof. by vm_compute. Qed.

Lemma first_fault_some fl s n k :
  first_fault fl s n = Some k ↔
    (k < n)%nat ∧ fl (s + k)%nat = true ∧ ∀ i, (i < k)%nat → fl (s + i)%nat = false.
Proof.
  revert s k. induction n as [|n IH]; intros s k; simpl.
  - split; [done | lia].
  - destruct (fl s) eqn:Hs.
    + split.
      * intros [= <-]. rewrite Nat.add_0_r. split; [lia|]. split; [done|]. lia.
      * intros (_ & _ & Hlt). destruct k as [|k]; [done|].
        specialize (Hlt 0%nat). rewrite Nat.add_0_r in Hlt.
        rewrite Hlt in Hs by lia. done.
    + rewrite fmap_Some. split.
      * intros (j & (? & ? & Hlt)%IH & ->).
        split; [lia|]. split; [by rewrite Nat.add_succ_r|].
        intros [|i] ?; [by rewrite Nat.add_0_r|].
        rewrite Nat.add_succ_r. apply Hlt. lia.
      * intros (? & Hk & Hlt). destruct k as [|k].
        { rewrite Nat.add_0_r in Hk. congruence. }
        exists k. split; [|done]. apply IH.
        split; [lia|]. rewrite Nat.add_succ_r in Hk. split; [done|].
        intros i ?. specialize (Hlt (S i)). rewrite Nat.add_succ_r in Hlt.
        apply Hlt. lia.
Qed.

(** The exit status tells whether an operation on the file failed. *)
Lemma exit_status_run w :
  exit_status (python3 script w) =
    match first_fault (fault w) (ops w) 130 with Some _ => 1 | None => 0 end.
Proof.
  rewrite script_run. unfold run_result. rewrite written_length.
  change (S (128 + 1)) with 130%nat.
  by destruct (first_fault _ _ _) as [[|j]|].
Qed.

Lemma run_clean w :
  first_fault (fault w) (ops w) 130 = None →
  python3 script w =
    mkProcess 0 None
      (mkMachine final_globals
         (mkWorld (<["output.txt" := text_of final_globals]> (disk w)) (fault w)
                  (ops w + 130))).
Proof.
  intros H. rewrite script_run. unfold run_result. rewrite written_length.
  change (S (128 + 1)) with 130%nat. by rewrite H.
Qed.

(** C2: whatever the files before it, a run that succeeds leaves in
    [output.txt] a text that reads back as 128 records; every one of them
    belongs to a category; and each of the four categories holds exactly
    the widths 8, 16, ..., 256, one record per width, which makes 32
    records. *)
Theorem records_per_category (w : World) :
  exit_status (python3 script w) = 0 →
  (∃ text sts,
     disk (world (final (python3 script w))) !! "output.txt" = Some text ∧
     output_txt = Some text ∧
     read_text text = Some sts ∧
     sts = output_stubs ∧
     length sts = 128%nat ∧
     Forall (λ st, is_Some (kind st)) sts ∧
     (∀ sg sh, widths_of sg sh sts = range 8 257 8)) ∧
  length output_stubs = 128%nat ∧
  Forall (λ st, is_Some (kind st)) output_stubs ∧
  (∀ sg sh, widths_of sg sh output_stubs = range 8 257 8) ∧
  range 8 257 8 = (λ k, 8 * k) <$> seqZ 1 32 ∧
  length (range 8 257 8) = 32%nat ∧
  NoDup (range 8 257 8).
Proof.
  assert (length output_stubs = 128%nat) as Hlen by (vm_compute; reflexivity).
  assert (Forall (λ st, is_Some (kind st)) output_stubs) as Hkind.
  { rewrite output_stubs_eq. apply Forall_stubs_for. intros sg sh w' _.
    by rewrite kind_stub_of. }
  assert (∀ sg sh, widths_of sg sh output_stubs = range 8 257 8) as Hwidths.
  { intros sg sh. rewrite output_stubs_eq. apply widths_of_stubs_for. }
  intros Hexit.
  split; [|split; [exact Hlen|split; [exact Hkind|split;
    [exact Hwidths|split; [|split]]]]].
  - rewrite exit_status_run in Hexit.
    destruct (first_fault _ _ _) eqn:E; [done|].
    rewrite (run_clean _ E). cbn [final world disk].
    exists (text_of final_globals), output_stubs.
    split; [apply lookup_insert_eq|]. split; [apply output_txt_eq|].
    split; [rewrite output_stubs_eq; apply read_text_extend|].
    split; [reflexivity|]. split; [exact Hlen|]. split; [exact Hkind|exact Hwidths].
  - reflexivity.
  - reflexivity.
  - apply (bool_decide_unpack _). vm_compute. exact I.
Qed.

Lemma records_per_category_witness :
  (∃ text sts,
     disk (world (final (python3 script
       (healthy {["output.txt" := "left by an earlier run"]})))) !! "output.txt"
       = Some text ∧
     output_txt = Some text ∧
     read_text text = Some sts ∧
     sts = output_stubs ∧
     length sts = 128%nat ∧
     Forall (λ st, is_Some (kind st)) sts ∧
     (∀ sg sh, widths_of sg sh sts = range 8 257 8)) ∧
  length output_stubs = 128%nat ∧
  Forall (λ st, is_Some (kind st)) output_stubs ∧
  (∀ sg sh, widths_of sg sh output_stubs = range 8 257 8) ∧
  range 8 257 8 = (λ k, 8 * k) <$> seqZ 1 32 ∧
  length (range 8 257 8) = 32%nat ∧
  NoDup (range 8 257 8).
Proof.
  apply (records_per_category
           (healthy {["output.txt" := "left by an earlier run"]})).
  vm_compute. reflexivity.
Defined.

(** C3: in every record the byte count passed last to the primitive is the
    record's width divided by 8, and the division leaves no remainder: 8
    times the byte count is the width. The records of width 24 pass 3 and
    those of width 256 pass 32. *)
Theorem byte_count_is_width_div_8 :
  Forall (λ st, ∃ sg sh w,
            kind st = Some (sg, sh, w) ∧ w ∈ range 8 257 8 ∧
            byte_count st = floordiv w 8 ∧ w `mod` 8 = 0 ∧
            8 * byte_count st = w)
         output_stubs ∧
  byte_count <$> of_width 24 output_stubs = [3; 3; 3; 3] ∧
  byte_count <$> of_width 256 output_stubs = [32; 32; 32; 32].
Proof.
  split; [|split; by vm_compute].
  rewrite output_stubs_eq. apply Forall_stubs_for. intros sg sh w Hw.
  exists sg, sh, w. rewrite kind_stub_of.
  apply elem_of_widths in Hw as Hk. destruct Hk as (k & Hk & ->).
  assert (floordiv (8 * k) 8 = k) as Hdiv.
  { unfold floordiv. rewrite Z.mul_comm. by apply Z.div_mul. }
  assert (byte_count (stub_of sg sh (8 * k) (pick sg (rust_types (8 * k)))) = k)
    as -> by (by destruct sh).
  rewrite Hdiv. repeat split; try done.
  rewrite Z.mul_comm. by apply Z.mod_mul.
Qed.

(** The text reads back as the records: no statement about the records is
    empty. *)
Lemma output_read : output_txt ≫= read_text = Some output_stubs.
Proof.
  rewrite output_stubs_eq, output_txt_eq. cbn [mbind option_bind].
  apply read_text_extend.
Qed.



Lemma kind_category sg sh ws :
  kind <$> category_stubs sg sh ws = (λ w, Some (sg, sh, w)) <$> ws.
Proof.
  unfold category_stubs. rewrite <- list_fmap_compose.
  apply list_fmap_ext. intros i w _. apply kind_stub_of.
Qed.



(** A numeral with or without the array suffix determines both. *)
Lemma numeral_suffix_inj sh w sh' w' :
  str w +:+ match sh with Scalar => "" | Array => "_array" end =
  str w' +:+ match sh' with Scalar => "" | Array => "_array" end →
  sh = sh' ∧ w = w'.
Proof.
  assert (no_char "_" (str w) = true) as Hw by (by apply str_no_char).
  assert (no_char "_" (str w') = true) as Hw' by (by apply str_no_char).
  destruct sh, sh'; intros H.
  - rewrite !append_nil_r in H. by apply str_inj in H.
  - apply (f_equal (split_at "_")) in H.
    by rewrite append_nil_r, (split_at_none "_" (str w)),
      (split_at_app "_" (str w')) in H.
  - apply (f_equal (split_at "_")) in H.
    by rewrite append_nil_r, (split_at_none "_" (str w')),
      (split_at_app "_" (str w)) in H.
  - apply (f_equal (split_at "_")) in H.
    rewrite !split_at_app in H by done.
    injection H as H. by apply str_inj in H.
Qed.

(** A method name determines its category and its width. *)
Lemma method_name_inj sg sh w sg' sh' w' :
  method_name sg sh w = method_name sg' sh' w' → sg = sg' ∧ sh = sh' ∧ w = w'.
Proof.
  unfold method_name.
  destruct sg, sg'; cbn [sol_prefix String.append]; intros [= H]; try done;
    by apply numeral_suffix_inj in H as [-> ->].
Qed.

Lemma fn_name_stub_of sg sh w ty : fn_name (stub_of sg sh w ty) = method_name sg sh w.
Proof. by destruct sh. Qed.

Lemma doc_type_stub_of sg sh w ty : doc_type (stub_of sg sh w ty) = sol_name sg sh w.
Proof. by destruct sh. Qed.

(** C5: every written record is named [add_<int|uint><w>[_array]] after
    its category and width and documents the Solidity type
    [<int|uint><w>] with [[]] for arrays; the four names and the four
    documented types are spelled out for every integer [w], and the
    records of width 24 are [add_int24], [add_int24_array], [add_uint24]
    and [add_uint24_array], documenting [int24], [int24[]], [uint24] and
    [uint24[]]. *)
Theorem names_and_documented_types :
  output_txt ≫= read_text = Some output_stubs ∧
  Forall (λ st, ∃ sg sh w,
            kind st = Some (sg, sh, w) ∧ w ∈ range 8 257 8 ∧
            fn_name st = method_name sg sh w ∧
            doc_type st = sol_name sg sh w)
         output_stubs ∧
  (∀ w : Z,
     method_name Signed Scalar w = "add_int" +:+ str w ∧
     method_name Unsigned Scalar w = "add_uint" +:+ str w ∧
     method_name Signed Array w = "add_int" +:+ str w +:+ "_array" ∧
     method_name Unsigned Array w = "add_uint" +:+ str w +:+ "_array" ∧
     sol_name Signed Scalar w = "int" +:+ str w ∧
     sol_name Unsigned Scalar w = "uint" +:+ str w ∧
     sol_name Signed Array w = "int" +:+ str w +:+ "[]" ∧
     sol_name Unsigned Array w = "uint" +:+ str w +:+ "[]") ∧
  (∀ sg sh w, w ∈ range 8 257 8 →
     ∃ st, st ∈ output_stubs ∧ kind st = Some (sg, sh, w) ∧
           fn_name st = method_name sg sh w ∧ doc_type st = sol_name sg sh w) ∧
  (λ st, (kind st, fn_name st, doc_type st)) <$> of_width 24 output_stubs =
    [ (Some (Signed, Scalar, 24), "add_int24", "int24");
      (Some (Signed, Array, 24), "add_int24_array", "int24[]");
      (Some (Unsigned, Scalar, 24), "add_uint24", "uint24");
      (Some (Unsigned, Array, 24), "add_uint24_array", "uint24[]") ].
Proof.
  split; [apply output_read|]. split; [|split; [|split]].
  - rewrite output_stubs_eq. apply Forall_stubs_for. intros sg sh w Hw.
    exists sg, sh, w.
    by rewrite kind_stub_of, fn_name_stub_of, doc_type_stub_of.
  - intros w. unfold method_name, sol_name. cbn [sol_prefix String.append].
    by rewrite !append_nil_r.
  - intros sg sh w Hw. eexists. split.
    + rewrite output_stubs_eq. by apply stub_of_in_stubs_for.
    + by rewrite kind_stub_of, fn_name_stub_of, doc_type_stub_of.
  - by vm_compute.
Qed.

(** C6: a run in a directory with any files, [output.txt] among them or
    not, succeeds and leaves in [output.txt] a text whose first record is
    [add_int8], documented as [int8] and passing the byte width 1, and whose
    last record is [add_uint256_array], documented as [uint256[]] and
    passing 32; width 8 has its record in every category, like the other
    widths. *)
Theorem first_and_last_record :
  (∀ d : gmap string string,
     exit_status (python3 script (healthy d)) = 0 ∧
     disk (world (final (python3 script (healthy d)))) !! "output.txt" = output_txt) ∧
  output_txt ≫= read_text = Some output_stubs ∧
  head output_stubs =
    Some (mkStub "int8" "add_int8" "val" "i8" "add_int" "&val" "int8" 1) ∧
  last output_stubs =
    Some (mkStub "uint256[]" "add_uint256_array" "values" "&[BigUint]"
            "add_int_array" "values" "uint256[]" 32) ∧
  (∀ sg sh, 8 ∈ widths_of sg sh output_stubs) ∧
  (∀ sg sh, widths_of sg sh output_stubs = range 8 257 8).
Proof.
  split; [|split; [apply output_read|]].
  - intros d. rewrite output_txt_eq, script_run. unfold run_result, healthy.
    cbn [fault ops disk]. rewrite first_fault_healthy.
    cbn [exit_status final world disk]. split; [done|]. apply lookup_insert_eq.
  - split; [by vm_compute|]. split; [by vm_compute|].
    assert (∀ sg sh, widths_of sg sh output_stubs = range 8 257 8) as Hw.
    { intros sg sh. rewrite output_stubs_eq. apply widths_of_stubs_for. }
    split; [|done]. intros sg sh. rewrite Hw.
    apply elem_of_widths. exists 1. lia.
Qed.

(** C10: the 128 declared names are pairwise distinct. A name is made of
    the [int] or [uint] prefix, the numeral of the width and the array
    suffix or none, and two names are equal only for the same category
    and the same width, whatever the integers. *)
Theorem declared_names_distinct :
  length (fn_name <$> output_stubs) = 128%nat ∧
  NoDup (fn_name <$> output_stubs) ∧
  Forall (λ st, ∃ sg sh w,
            kind st = Some (sg, sh, w) ∧ fn_name st = method_name sg sh w)
         output_stubs ∧
  (∀ sg sh w sg' sh' w',
     method_name sg sh w = method_name sg' sh' w' → sg = sg' ∧ sh = sh' ∧ w = w') ∧
  (∀ i j st st',
     output_stubs !! i = Some st → output_stubs !! j = Some st' →
     i ≠ j → fn_name st ≠ fn_name st').
Proof.
  assert (NoDup (fn_name <$> output_stubs)) as Hnodup.
  { assert (NoDup (kind <$> output_stubs)) as Hk
      by (apply (bool_decide_unpack _); by vm_compute).
    assert (Forall (λ st, ∃ sg sh w, kind st = Some (sg, sh, w) ∧
                          fn_name st = method_name sg sh w) output_stubs) as Hall.
    { rewrite output_stubs_eq. apply Forall_stubs_for. intros sg sh w _.
      exists sg, sh, w. by rewrite kind_stub_of, fn_name_stub_of. }
    revert Hk Hall. generalize output_stubs as sts.
    induction sts as [|st sts IH]; [constructor|].
    cbn [fmap list_fmap]. rewrite !NoDup_cons, Forall_cons.
    intros [Hst Hk] [(sg & sh & w & Hkind & Hname) Hall].
    split; [|by apply IH].
    intros (st' & Heq & Hin)%list_elem_of_fmap. apply Hst.
    apply list_elem_of_fmap. exists st'. split; [|done].
    rewrite Forall_forall in Hall.
    destruct (Hall st' Hin) as (sg' & sh' & w' & Hkind' & Hname').
    rewrite Hname, Hname' in Heq.
    apply method_name_inj in Heq as (-> & -> & ->). congruence. }
  split; [by vm_compute|]. split; [done|]. split; [|split].
  - rewrite output_stubs_eq. apply Forall_stubs_for. intros sg sh w _.
    exists sg, sh, w. by rewrite kind_stub_of, fn_name_stub_of.
  - apply method_name_inj.
  - intros i j st st' Hi Hj Hij Heq.
    apply Hij. eapply (NoDup_lookup _ i j (fn_name st) Hnodup).
    + by rewrite list_lookup_fmap, Hi.
    + by rewrite list_lookup_fmap, Hj, Heq.
Qed.

(** C7: two runs that succeed, whatever files and whatever fault-free
    operating system each of them meets, leave the same text in
    [output.txt], the text of a run in an empty directory; and a second run
    on the files the first one left, if it succeeds, leaves every file as
    it was. *)
Theorem runs_write_the_same_text (w1 w2 : World) :
  exit_status (python3 script w1) = 0 →
  exit_status (python3 script w2) = 0 →
  (∃ text, output_txt = Some text ∧
     disk (world (final (python3 script w1))) !! "output.txt" = Some text ∧
     disk (world (final (python3 script w2))) !! "output.txt" = Some text) ∧
  (exit_status (python3 script (world (final (python3 script w1)))) = 0 →
   disk (world (final (python3 script (world (final (python3 script w1)))))) =
   disk (world (final (python3 script w1)))).
Proof.
  rewrite !exit_status_run. intros H1 H2.
  destruct (first_fault (fault w1) (ops w1) 130) eqn:E1; [done|].
  destruct (first_fault (fault w2) (ops w2) 130) eqn:E2; [done|].
  rewrite (run_clean _ E1), (run_clean _ E2). cbn [final world disk fault ops].
  split.
  - exists (text_of final_globals). rewrite output_txt_eq.
    by rewrite !lookup_insert_eq.
  - destruct (first_fault (fault w1) (ops w1 + 130) 130) eqn:E3; [done|].
    intros _.
    rewrite (run_clean (mkWorld _ (fault w1) (ops w1 + 130)) E3).
    cbn [final world disk]. by rewrite insert_insert_eq.
Qed.

Lemma runs_write_the_same_text_witness :
  (∃ text, output_txt = Some text ∧
     disk (world (final (python3 script (healthy ∅)))) !! "output.txt" = Some text ∧
     disk (world (final (python3 script
       (healthy {["output.txt" := "stale"; "notes.txt" := "kept"]})))) !! "output.txt"
       = Some text) ∧
  (exit_status (python3 script (world (final (python3 script (healthy ∅))))) = 0 →
   disk (world (final (python3 script (world (final (python3 script (healthy ∅))))))) =
   disk (world (final (python3 script (healthy ∅))))).
Proof.
  apply (runs_write_the_same_text (healthy ∅)
           (healthy {["output.txt" := "stale"; "notes.txt" := "kept"]}));
    vm_compute; reflexivity.
Defined.

(** C8: the lines of the written text come in groups of six: a
    doc-comment line, the line [#[allow(dead_code)]], a declaration line,
    a body line, the closing brace and one blank line, for each of the 128
    records, and every line is ended by a line feed. Once [open] has
    succeeded the file holds text of this run only, whatever it held
    before: the whole text after a successful run, a beginning of it if a
    later operation failed; the other files are left as they were. *)
Theorem record_layout_and_truncation :
  (∃ text, output_txt = Some text ∧
     layout_ok (lines text) = true ∧
     length (lines text) = (6 * 128)%nat ∧
     unlines (lines text) = text ∧
     read_text text = Some output_stubs ∧
     length output_stubs = 128%nat) ∧
  (∀ w, fault w (ops w) = false →
     ∃ beginning rest,
       disk (world (final (python3 script w))) !! "output.txt" = Some beginning ∧
       output_txt = Some (beginning +:+ rest)) ∧
  (∀ w, exit_status (python3 script w) = 0 →
     disk (world (final (python3 script w))) !! "output.txt" = output_txt) ∧
  (∀ w p, p ≠ "output.txt" →
     disk (world (final (python3 script w))) !! p = disk w !! p).
Proof.
  split; [|split; [|split]].
  - exists (text_of final_globals). split; [apply output_txt_eq|].
    split; [by vm_compute|]. split; [by vm_compute|].
    split; [apply String.eqb_eq; by vm_compute|].
    split; [|by vm_compute].
    rewrite output_stubs_eq. apply read_text_extend.
  - intros w Hopen. rewrite script_run, output_txt_eq. unfold run_result, text_of.
    cbn [first_fault]. rewrite Hopen.
    destruct (first_fault _ _ _) as [j|]; cbn [fmap option_fmap option_map final world disk].
    + exists (block (take j (written final_globals))),
        (block (drop j (written final_globals))).
      split; [apply lookup_insert_eq|].
      by rewrite <- block_app, take_drop.
    + exists (block (written final_globals)), "".
      split; [apply lookup_insert_eq|]. by rewrite append_nil_r.
  - intros w. rewrite exit_status_run.
    destruct (first_fault _ _ _) eqn:E; [done|]. intros _.
    rewrite (run_clean _ E), output_txt_eq. apply lookup_insert_eq.
  - intros w p Hp. rewrite script_run. unfold run_result.
    destruct (first_fault _ _ _) as [[|j]|]; cbn [final world disk];
      by rewrite ?lookup_insert_ne.
Qed.

(** C9: the run ends with status 0 exactly when none of its 130 operations
    on the file fails, one [open], 128 writes and one [close], and then
    nothing is reported and the file holds the text; otherwise it ends with
    status 1 and reports the [OSError] of the first operation that failed,
    after which no further operation is attempted. *)
Theorem failure_iff_file_operation_fails (w : World) :
  (exit_status (python3 script w) = 0 ↔
     ∀ i, (i < 130)%nat → fault w (ops w + i) = false) ∧
  (exit_status (python3 script w) ≠ 0 ↔
     ∃ i, (i < 130)%nat ∧ fault w (ops w + i) = true) ∧
  (exit_status (python3 script w) = 0 →
     diagnostic (python3 script w) = None ∧
     disk (world (final (python3 script w))) !! "output.txt" = output_txt) ∧
  (exit_status (python3 script w) ≠ 0 →
     exit_status (python3 script w) = 1 ∧
     ∃ op k,
       diagnostic (python3 script w) = Some (OSError op "output.txt") ∧
       op = (if decide (k = 0%nat) then "open"
             else if decide (k = 129%nat) then "close" else "write") ∧
       (k < 130)%nat ∧ fault w (ops w + k) = true ∧
       (∀ i, (i < k)%nat → fault w (ops w + i) = false) ∧
       ops (world (final (python3 script w))) = (ops w + S k)%nat).
Proof.
  rewrite exit_status_run.
  destruct (first_fault (fault w) (ops w) 130) as [k|] eqn:E.
  - apply first_fault_some in E as Hk. destruct Hk as (Hlt & Hk & Hbefore).
    split; [|split; [|split]].
    + split; [done|]. intros H. rewrite H in Hk by done. done.
    + split; [|done]. intros _. by exists k.
    + done.
    + intros _. split; [done|].
      rewrite script_run. unfold run_result. rewrite written_length.
      change (S (128 + 1)) with 130%nat. rewrite E.
      destruct k as [|j]; cbn [diagnostic final world ops].
      * exists "open", 0%nat. repeat split; try done. lia.
      * eexists _, (S j). split; [reflexivity|].
        split; [|split; [done|split; [done|split; [done|lia]]]].
        rewrite decide_False by done.
        destruct (decide (j < 128)%nat).
        -- rewrite bool_decide_eq_true_2 by done.
           by rewrite decide_False by lia.
        -- rewrite bool_decide_eq_false_2 by done.
           by rewrite decide_True by lia.
  - pose proof (proj1 (first_fault_none _ _ _) E) as Hall.
    split; [|split; [|split]].
    + done.
    + split; [done|]. intros (i & Hi & Hf). rewrite Hall in Hf by done. done.
    + intros _. rewrite (run_clean _ E), output_txt_eq.
      cbn [diagnostic final world disk]. split; [done|]. apply lookup_insert_eq.
    + done.
Qed.

End Claims.

(* ===================================================================== *)
(** ** Beyond the widths of the script *)
(* ===================================================================== *)

(** [add_methods_for_bit_width] and the body of the loop take any integer
    and any two type names. This part states what they do outside the
    range the script runs them on. *)

Module Beyond.

(** The integers [str] takes: the interpreter raises [ValueError] on an
    [int] of more than [max_str_digits] decimal digits. *)
Definition max_str_digits : Z := 4300.

Definition str_fits (n : Z) : bool := Z.abs n <? 10 ^ max_str_digits.

(** The bits of a Rust machine integer, read off its name: [i32] and [u32]
    have 32; [BigInt] and [BigUint] have no bound. *)
Definition type_bits (ty : string) : option Z :=
  match ty with
  | String c digits =>
      if Ascii.eqb c "i" || Ascii.eqb c "u" then parse_int digits else None
  | EmptyString => None
  end.

(** The characters of a Rust identifier written in lower case. *)
Definition ident_char (c : ascii) : bool :=
  match split_at c "abcdefghijklmnopqrstuvwxyz0123456789_" with
  | Some _ => true
  | None => false
  end.

Fixpoint is_ident (s : string) : bool :=
  match s with
  | EmptyString => true
  | String a s' => ident_char a && is_ident s'
  end.

Definition digit_char (c : ascii) : bool :=
  match split_at c "0123456789" with Some _ => true | None => false end.

Fixpoint digits (s : string) : bool :=
  match s with
  | EmptyString => true
  | String a s' => digit_char a && digits s'
  end.

(** The names declared by the four texts of one call, read from the texts. *)
Definition declared_names (w : Z) (s u : string) : list (option string) :=
  (λ t, fn_name <$> (read_text (block [t]) ≫= head)) <$>
    [int_text w s; uint_text w u; int_array_text w s; uint_array_text w u].

(** The machine a process starts the loop in: empty lists. *)
Definition fresh (wld : World) : Machine := mkMachine (mkGlobals [] [] [] []) wld.

End Beyond.

Import Beyond.

Section BeyondFacts.

#[local] Arguments str : simpl never.
#[local] Arguments floordiv : simpl never.

Lemma read_one sg st :
  readable st → read_text (block [stub_text (article sg) st]) = Some [st].
Proof.
  intros Hst. unfold read_text.
  change [stub_text (article sg) st] with (stub_text (article sg) <$> [st]).
  rewrite <- (append_nil_r (block _)).
  rewrite read_records_block by (by constructor). done.
Qed.

Lemma is_ident_app a b : is_ident (a +:+ b) = is_ident a && is_ident b.
Proof.
  induction a as [|x a IH]; simpl; [done|].
  by rewrite IH, andb_assoc.
Qed.

Lemma digits_is_ident s : digits s = true → is_ident s = true.
Proof.
  induction s as [|x s IH]; simpl; [done|].
  intros [Hx Hs]%andb_true_iff. rewrite (IH Hs), andb_true_r.
  revert Hx. unfold digit_char, ident_char.
  destruct x as [[] [] [] [] [] [] [] []]; by vm_compute.
Qed.

Lemma digits_uint (d : uint) : digits (NilEmpty.string_of_uint d) = true.
Proof. induction d; simpl; done. Qed.

(** The numeral of a number that is not negative has digits only. *)
Lemma str_digits (n : Z) : 0 ≤ n → digits (str n) = true.
Proof.
  unfold str. destruct n as [|p|p]; simpl; [done| |lia].
  intros _. destruct (Pos.to_uint p); try done; apply (digits_uint (_ _)).
Qed.

Lemma digits_no_char c s :
  digit_char c = false → digits s = true → no_char c s = true.
Proof.
  intros Hc. induction s as [|x s IH]; simpl; [done|].
  intros [Hx Hs]%andb_true_iff.
  rewrite (IH Hs), andb_true_r.
  destruct (Ascii.eqb_spec x c) as [->|]; [congruence | done].
Qed.

Lemma method_name_no_minus sg sh w : 0 ≤ w → no_char "-" (method_name sg sh w) = true.
Proof.
  intros Hw. unfold method_name.
  rewrite !no_char_app, (digits_no_char "-" _ eq_refl (str_digits _ Hw)).
  by destruct sg, sh.
Qed.

Lemma method_name_minus sg sh w : w < 0 → no_char "-" (method_name sg sh w) = false.
Proof.
  intros Hw. unfold method_name. rewrite !no_char_app.
  assert (no_char "-" (str w) = false) as ->; [|by destruct sg, sh].
  unfold str. by destruct w as [|p|p].
Qed.

(** The quotient by 8 of an integer that [str] takes is one that [str] takes. *)
Lemma str_fits_div8 w : str_fits w = true → str_fits (w `div` 8) = true.
Proof.
  unfold str_fits. rewrite !Z.ltb_lt. generalize (10 ^ max_str_digits). intros b Hb.
  pose proof (Z.mul_div_le w 8). pose proof (Z.mul_succ_div_gt w 8). lia.
Qed.

Lemma method_name_ident sg sh w : 0 ≤ w → is_ident (method_name sg sh w) = true.
Proof.
  intros Hw. unfold method_name.
  rewrite !is_ident_app, (digits_is_ident _ (str_digits _ Hw)).
  by destruct sg, sh.
Qed.

Lemma method_name_not_ident sg sh w : w < 0 → is_ident (method_name sg sh w) = false.
Proof.
  intros Hw. unfold method_name. rewrite !is_ident_app.
  assert (is_ident (str w) = false) as ->; [|by destruct sg, sh].
  unfold str. by destruct w as [|p|p].
Qed.

Lemma declared_names_eq w s u :
  plain s → plain u →
  declared_names w s u =
    [ Some (method_name Signed Scalar w); Some (method_name Unsigned Scalar w);
      Some (method_name Signed Array w); Some (method_name Unsigned Array w) ].
Proof.
  intros Hs Hu. unfold declared_names. cbn [fmap list_fmap].
  rewrite int_text_print, uint_text_print, int_array_text_print, uint_array_text_print.
  rewrite !read_one by (by apply stub_of_readable).
  cbn [mbind option_bind head fmap option_fmap option_map].
  by rewrite !fn_name_stub_of.
Qed.

(** X1: one call of [add_methods_for_bit_width], for any integer width of
    at most 4300 digits and any two type names that can stand in a
    parameter list, returns normally, touches no file and puts at the end
    of each list one text that reads back as one record: named and
    documented after the width, over the signed name in the two signed
    lists and the unsigned name in the two unsigned lists, delegating to
    [add_int] for both scalars and to [add_int_array] for both arrays, and
    passing the width divided by 8 rounded down, which [str] takes as
    well. *)
Theorem one_call_round_trip (w : Z) (s u : string) (m : Machine) :
  str_fits w = true → plain s → plain u →
  ∃ m' t1 t2 t3 t4,
    add_methods_for_bit_width w s u m = Normal tt m' ∧
    world m' = world m ∧
    int_versions (globals m') = int_versions (globals m) ++ [t1] ∧
    uint_versions (globals m') = uint_versions (globals m) ++ [t2] ∧
    int_array_versions (globals m') = int_array_versions (globals m) ++ [t3] ∧
    uint_array_versions (globals m') = uint_array_versions (globals m) ++ [t4] ∧
    read_text (block [t1]) =
      Some [mkStub ("int" +:+ str w) ("add_int" +:+ str w) "val" s
              "add_int" "&val" ("int" +:+ str w) (w `div` 8)] ∧
    read_text (block [t2]) =
      Some [mkStub ("uint" +:+ str w) ("add_uint" +:+ str w) "val" u
              "add_int" "&val" ("uint" +:+ str w) (w `div` 8)] ∧
    read_text (block [t3]) =
      Some [mkStub ("int" +:+ str w +:+ "[]") ("add_int" +:+ str w +:+ "_array")
              "values" ("&[" +:+ s +:+ "]")
              "add_int_array" "values" ("int" +:+ str w +:+ "[]") (w `div` 8)] ∧
    read_text (block [t4]) =
      Some [mkStub ("uint" +:+ str w +:+ "[]") ("add_uint" +:+ str w +:+ "_array")
              "values" ("&[" +:+ u +:+ "]")
              "add_int_array" "values" ("uint" +:+ str w +:+ "[]") (w `div` 8)] ∧
    str_fits (w `div` 8) = true ∧
    8 * (w `div` 8) ≤ w < 8 * (w `div` 8) + 8.
Proof.
  intros Hfits Hs Hu. eexists _, _, _, _, _. rewrite add_methods_run.
  split; [reflexivity|]. cbn [globals world].
  do 5 (split; [reflexivity|]).
  rewrite int_text_print, uint_text_print, int_array_text_print, uint_array_text_print.
  rewrite !read_one by (by apply stub_of_readable).
  unfold stub_of, sol_name, method_name, floordiv.
  cbn [sol_prefix String.append]. rewrite !append_nil_r.
  do 4 (split; [reflexivity|]).
  split; [by apply str_fits_div8|].
  pose proof (Z.mul_div_le w 8). pose proof (Z.mul_succ_div_gt w 8). lia.
Qed.

Lemma one_call_round_trip_witness :
  ∃ m' t1 t2 t3 t4,
    add_methods_for_bit_width 12 "i16" "u16" (fresh (healthy ∅)) = Normal tt m' ∧
    world m' = world (fresh (healthy ∅)) ∧
    int_versions (globals m') = int_versions (globals (fresh (healthy ∅))) ++ [t1] ∧
    uint_versions (globals m') = uint_versions (globals (fresh (healthy ∅))) ++ [t2] ∧
    int_array_versions (globals m') = int_array_versions (globals (fresh (healthy ∅))) ++ [t3] ∧
    uint_array_versions (globals m') = uint_array_versions (globals (fresh (healthy ∅))) ++ [t4] ∧
    read_text (block [t1]) =
      Some [mkStub ("int" +:+ str 12) ("add_int" +:+ str 12) "val" "i16"
              "add_int" "&val" ("int" +:+ str 12) (12 `div` 8)] ∧
    read_text (block [t2]) =
      Some [mkStub ("uint" +:+ str 12) ("add_uint" +:+ str 12) "val" "u16"
              "add_int" "&val" ("uint" +:+ str 12) (12 `div` 8)] ∧
    read_text (block [t3]) =
      Some [mkStub ("int" +:+ str 12 +:+ "[]") ("add_int" +:+ str 12 +:+ "_array")
              "values" ("&[" +:+ "i16" +:+ "]")
              "add_int_array" "values" ("int" +:+ str 12 +:+ "[]") (12 `div` 8)] ∧
    read_text (block [t4]) =
      Some [mkStub ("uint" +:+ str 12 +:+ "[]") ("add_uint" +:+ str 12 +:+ "_array")
              "values" ("&[" +:+ "u16" +:+ "]")
              "add_int_array" "values" ("uint" +:+ str 12 +:+ "[]") (12 `div` 8)] ∧
    str_fits (12 `div` 8) = true ∧
    8 * (12 `div` 8) ≤ 12 < 8 * (12 `div` 8) + 8.
Proof.
  apply (one_call_round_trip 12 "i16" "u16" (fresh (healthy ∅)));
    [vm_compute; reflexivity | split; reflexivity | split; reflexivity].
Defined.

(** X2: the body of the loop, run from empty lists over any list of
    integers of at most 4300 digits each, returns normally and touches no
    file; each list gets one text per integer, and the four lists written
    in the order of the write loops read back as one record per category
    and integer, in the order of the list, repeated integers included. *)
Theorem loop_over_any_widths (ws : list Z) (wld : World) :
  Forall (λ w, str_fits w = true) ws →
  ∃ m',
    for_each ws loop_body (fresh wld) = Normal tt m' ∧
    world m' = wld ∧
    length (int_versions (globals m')) = length ws ∧
    length (uint_versions (globals m')) = length ws ∧
    length (int_array_versions (globals m')) = length ws ∧
    length (uint_array_versions (globals m')) = length ws ∧
    (∃ sts, read_text (text_of (globals m')) = Some sts ∧
       length sts = (4 * length ws)%nat ∧
       (∀ sg sh, widths_of sg sh sts = ws) ∧
       kind <$> sts =
         ((λ w, Some (Signed, Scalar, w)) <$> ws) ++
         ((λ w, Some (Signed, Array, w)) <$> ws) ++
         ((λ w, Some (Unsigned, Scalar, w)) <$> ws) ++
         ((λ w, Some (Unsigned, Array, w)) <$> ws)).
Proof.
  intros _. eexists. rewrite loop_run. split; [reflexivity|].
  cbn [globals world fresh].
  split; [reflexivity|].
  unfold extend at 1 2 3 4.
  cbn [int_versions uint_versions int_array_versions uint_array_versions app].
  rewrite !length_fmap. do 4 (split; [reflexivity|]).
  exists (stubs_for ws). split; [apply read_text_extend|].
  split; [|split].
  - unfold stubs_for, category_stubs. rewrite !length_app, !length_fmap. lia.
  - intros sg sh. apply widths_of_stubs_for.
  - unfold stubs_for. by rewrite !fmap_app, !kind_category.
Qed.

Lemma loop_over_any_widths_witness :
  ∃ m',
    for_each [12; 12; -8; 300]%Z loop_body (fresh (healthy ∅)) = Normal tt m' ∧
    world m' = (healthy ∅) ∧
    length (int_versions (globals m')) = length [12; 12; -8; 300]%Z ∧
    length (uint_versions (globals m')) = length [12; 12; -8; 300]%Z ∧
    length (int_array_versions (globals m')) = length [12; 12; -8; 300]%Z ∧
    length (uint_array_versions (globals m')) = length [12; 12; -8; 300]%Z ∧
    (∃ sts, read_text (text_of (globals m')) = Some sts ∧
       length sts = (4 * length [12; 12; -8; 300]%Z)%nat ∧
       (∀ sg sh, widths_of sg sh sts = [12; 12; -8; 300]%Z) ∧
       kind <$> sts =
         ((λ w, Some (Signed, Scalar, w)) <$> [12; 12; -8; 300]%Z) ++
         ((λ w, Some (Signed, Array, w)) <$> [12; 12; -8; 300]%Z) ++
         ((λ w, Some (Unsigned, Scalar, w)) <$> [12; 12; -8; 300]%Z) ++
         ((λ w, Some (Unsigned, Array, w)) <$> [12; 12; -8; 300]%Z)).
Proof.
  apply (loop_over_any_widths [12; 12; -8; 300]%Z (healthy ∅)).
  repeat (apply Forall_cons_2 || apply Forall_nil_2); vm_compute; reflexivity.
Defined.

(** X3: for every integer width the loop body calls
    [add_methods_for_bit_width] with a signed name [i<b>] and the unsigned
    name [u<b>] of the same size [b], one of 8, 16, 32, 64 and 128, when
    the width is at most 128: the width fits in [b] bits and no smaller of
    these sizes would hold it; it calls it with [BigInt] and [BigUint]
    exactly when the width is above 128. *)
Theorem chosen_type_is_narrowest_fit (w : Z) :
  ∃ s u,
    loop_body w = add_methods_for_bit_width w s u ∧
    type_bits s = type_bits u ∧
    match type_bits s with
    | Some b =>
        s = "i" +:+ str b ∧ u = "u" +:+ str b ∧
        w ≤ b ∧ b ∈ [8; 16; 32; 64; 128] ∧ (8 < b → b `div` 2 < w)
    | None => 128 < w ∧ s = "BigInt" ∧ u = "BigUint"
    end.
Proof.
  exists (rust_types w).1, (rust_types w).2.
  split; [apply loop_body_types|]. unfold rust_types.
  destruct (Z.leb_spec w 8); [|destruct (Z.leb_spec w 16);
    [|destruct (Z.leb_spec w 32); [|destruct (Z.leb_spec w 64);
      [|destruct (Z.leb_spec w 128)]]]];
    (split; [reflexivity|]); cbn;
    repeat split; try reflexivity; try lia; set_solver.
Qed.

(** X4: a call with a width of at most 4300 digits declares four names.
    When the width is not negative each of them is made of lower-case
    letters, digits and underscores only and holds no minus sign; when the
    width is negative each of them holds a minus sign and is no
    identifier. *)
Theorem declared_names_are_identifiers (w : Z) (s u : string) :
  str_fits w = true → plain s → plain u →
  Forall (λ n, ∃ name, n = Some name ∧
            is_ident name = bool_decide (0 ≤ w) ∧
            no_char "-" name = bool_decide (0 ≤ w))
         (declared_names w s u).
Proof.
  intros _ Hs Hu. rewrite declared_names_eq by done.
  destruct (decide (0 ≤ w)) as [Hw|Hw].
  - rewrite bool_decide_eq_true_2 by done.
    repeat (apply Forall_cons_2 || apply Forall_nil_2);
      eexists; (split; [reflexivity|]);
      by rewrite method_name_ident, method_name_no_minus.
  - rewrite bool_decide_eq_false_2 by done.
    repeat (apply Forall_cons_2 || apply Forall_nil_2);
      eexists; (split; [reflexivity|]);
      by rewrite method_name_not_ident, method_name_minus by lia.
Qed.

Lemma declared_names_are_identifiers_witness :
  Forall (λ n, ∃ name, n = Some name ∧
            is_ident name = bool_decide (0 ≤ -8) ∧
            no_char "-" name = bool_decide (0 ≤ -8))
         (declared_names (-8) "i8" "u8").
Proof.
  apply (declared_names_are_identifiers (-8) "i8" "u8");
    [vm_compute; reflexivity | split; reflexivity | split; reflexivity].
Defined.

(** The names of a call at width 24 and at width -8. *)
Example declared_names_24 :
  declared_names 24 "i32" "u32" =
    [Some "add_int24"; Some "add_uint24";
     Some "add_int24_array"; Some "add_uint24_array"] ∧
  declared_names (-8) "i8" "u8" =
    [Some "add_int-8"; Some "add_uint-8";
     Some "add_int-8_array"; Some "add_uint-8_array"].
Proof. by vm_compute. Qed.

(** X5: run over any list of integers of at most 4300 digits each, the
    loop declares pairwise distinct names exactly when no integer occurs
    twice in the list. *)
Theorem names_distinct_iff_widths_distinct (ws : list Z) (wld : World) :
  Forall (λ w, str_fits w = true) ws →
  ∃ m' sts,
    for_each ws loop_body (fresh wld) = Normal tt m' ∧
    read_text (text_of (globals m')) = Some sts ∧
    (NoDup (fn_name <$> sts) ↔ NoDup ws).
Proof.
  intros _. eexists _, (stubs_for ws). rewrite loop_run. split; [reflexivity|].
  cbn [globals fresh]. split; [apply read_text_extend|].
  assert (∀ sg sh, fn_name <$> category_stubs sg sh ws = method_name sg sh <$> ws)
    as Hnames.
  { intros sg sh. unfold category_stubs. rewrite <- list_fmap_compose.
    apply list_fmap_ext. intros i w _. apply fn_name_stub_of. }
  assert (∀ sg sh, Inj (=) (=) (method_name sg sh)) as Hinj.
  { intros sg sh a b H. by apply method_name_inj in H as (_ & _ & ->). }
  assert (∀ sg sh sg' sh' x, (sg, sh) ≠ (sg', sh') →
            x ∈ method_name sg sh <$> ws → x ∉ method_name sg' sh' <$> ws)
    as Hdisj.
  { intros sg sh sg' sh' x Hne (a & -> & _)%list_elem_of_fmap
      (b & Heq & _)%list_elem_of_fmap.
    apply method_name_inj in Heq as (-> & -> & _). done. }
  unfold stubs_for. rewrite !fmap_app, !Hnames. split.
  - intros H. apply NoDup_app in H as [H _]. by apply NoDup_fmap in H.
  - intros H. rewrite !NoDup_app. repeat split;
      try (by apply NoDup_fmap);
      intros x Hx; rewrite ?not_elem_of_app; repeat split;
      by eapply Hdisj; [|exact Hx].
Qed.

Lemma names_distinct_iff_widths_distinct_witness :
  ∃ m' sts,
    for_each [12; -8; 300] loop_body (fresh (healthy ∅)) = Normal tt m' ∧
    read_text (text_of (globals m')) = Some sts ∧
    (NoDup (fn_name <$> sts) ↔ NoDup [12; -8; 300]).
Proof.
  apply (names_distinct_iff_widths_distinct [12; -8; 300] (healthy ∅)).
  repeat (apply Forall_cons_2 || apply Forall_nil_2); vm_compute; reflexivity.
Defined.

Lemma other_files_kept w p :
  p ≠ "output.txt" → disk (world (final (python3 script w))) !! p = disk w !! p.
Proof.
  intros Hp. rewrite script_run. unfold run_result.
  destruct (first_fault _ _ _) as [[|j]|]; cbn [final world disk];
    by rewrite ?lookup_insert_ne.
Qed.

(** X6: a run that follows another run on the same files, whether the
    first one failed or not and wherever it failed, and that succeeds
    itself, leaves the whole text in [output.txt] and every other file as
    it was before the first run. *)
Theorem rerun_repairs_the_file (w : World) :
  exit_status (python3 script (world (final (python3 script w)))) = 0 →
  disk (world (final (python3 script (world (final (python3 script w))))))
    !! "output.txt" = output_txt ∧
  ∀ p, p ≠ "output.txt" →
    disk (world (final (python3 script (world (final (python3 script w))))))
      !! p = disk w !! p.
Proof.
  intros Hexit. split.
  - revert Hexit. generalize (world (final (python3 script w))) as w'. intros w'.
    rewrite exit_status_run.
    destruct (first_fault _ _ _) eqn:E; [done|]. intros _.
    rewrite (run_clean _ E), output_txt_eq. apply lookup_insert_eq.
  - intros p Hp. by rewrite !other_files_kept.
Qed.

Lemma rerun_repairs_the_file_witness :
  disk (world (final (python3 script (world (final (python3 script
    (mkWorld {["notes.txt" := "kept"]} (λ n, Nat.eqb n 3) 0)))))))
    !! "output.txt" = output_txt ∧
  ∀ p, p ≠ "output.txt" →
    disk (world (final (python3 script (world (final (python3 script
      (mkWorld {["notes.txt" := "kept"]} (λ n, Nat.eqb n 3) 0)))))))
      !! p = disk (mkWorld {["notes.txt" := "kept"]} (λ n, Nat.eqb n 3) 0) !! p.
Proof.
  apply (rerun_repairs_the_file
           (mkWorld {["notes.txt" := "kept"]} (λ n, Nat.eqb n 3) 0)).
  vm_compute. reflexivity.
Defined.

End BeyondFacts.
